(** * Verification of the PokeLLM battle orchestration core

    A shallow embedding of the TypeScript sources:
    - [src/src/llm/DialogueAdapter.ts]: [ResponseParser.parse],
      [isValidMove], [isValidSwitch], [getRandomValidChoice],
      [getValidMoves], [getValidSwitches];
    - [src/src/battle/SimulatorBridge.ts]: [listenToStream], [parseWinner];
    - [src/src/battle/BattleManager.ts]: [ActiveBattle] turn updates,
      [BattleManager.startBattle];
    - [src/src/battle/LLMPlayer.ts]: [receiveRequest] with its timeout race.

    Strings are Stdlib [string]s of 8-bit code units; JS numbers that the
    code only ever holds as non-negative integers are [nat]. *)

From Stdlib Require Import String Ascii List Arith ZArith Lia Bool.
From Stdlib Require Import DecimalString DecimalNat QArith_base.
Import ListNotations.
Open Scope string_scope.
Open Scope nat_scope.

(* ------------------------------------------------------------------ *)
(** ** JS string primitives *)

Module JS.

Definition code (c : ascii) : nat := nat_of_ascii c.

(** [\d] *)
Definition is_digit (c : ascii) : bool :=
  (48 <=? code c) && (code c <=? 57).

(** [\w] (no [u] flag: ASCII letters, digits and underscore) *)
Definition is_word (c : ascii) : bool :=
  is_digit c
  || ((65 <=? code c) && (code c <=? 90))
  || ((97 <=? code c) && (code c <=? 122))
  || (code c =? 95).

(** [\s] and the characters [String.prototype.trim] removes, restricted
    to 8-bit code units: tab, LF, VT, FF, CR, space, NBSP. *)
Definition is_space (c : ascii) : bool :=
  ((9 <=? code c) && (code c <=? 13)) || (code c =? 32) || (code c =? 160).

(** [toLowerCase] on 8-bit code units: A-Z and the Latin-1 capitals. *)
Definition lower_char (c : ascii) : ascii :=
  if ((65 <=? code c) && (code c <=? 90))
     || ((192 <=? code c) && (code c <=? 222) && negb (code c =? 215))
  then ascii_of_nat (code c + 32) else c.

Fixpoint toLowerCase (s : string) : string :=
  match s with
  | EmptyString => EmptyString
  | String c r => String (lower_char c) (toLowerCase r)
  end.

Fixpoint trimStart (s : string) : string :=
  match s with
  | String c r => if is_space c then trimStart r else s
  | EmptyString => EmptyString
  end.

Definition rev_string (s : string) : string :=
  string_of_list_ascii (List.rev (list_ascii_of_string s)).

Definition trim (s : string) : string :=
  rev_string (trimStart (rev_string (trimStart s))).

(** [s.startsWith(p)] *)
Definition startsWith (s p : string) : bool := String.prefix p s.

(** [s.includes(p)] *)
Fixpoint includes (s p : string) : bool :=
  startsWith s p ||
  match s with
  | EmptyString => false
  | String _ r => includes r p
  end.

(** [s.endsWith(p)] *)
Definition endsWith (s p : string) : bool :=
  startsWith (rev_string s) (rev_string p).

(** [s.split(sep)] for a one-character separator. *)
Fixpoint split (sep : ascii) (s : string) : list string :=
  match s with
  | EmptyString => [EmptyString]
  | String c r =>
      if Ascii.eqb c sep then EmptyString :: split sep r
      else match split sep r with
           | [] => [String c EmptyString]
           | w :: ws => String c w :: ws
           end
  end.

(** [xs[i]] on a list of strings: [None] is [undefined]. *)
Definition at_ (xs : list string) (i : nat) : option string := nth_error xs i.

(** Decimal rendering of a non-negative integer, as a template literal
    [`${n}`] prints it. *)
Definition show_nat (n : nat) : string :=
  NilEmpty.string_of_uint (Nat.to_uint n).

(** Value of a run of decimal digits ([parseInt] on [\d+]). *)
Fixpoint digits_value_acc (acc : nat) (s : string) : nat :=
  match s with
  | EmptyString => acc
  | String c r => digits_value_acc (acc * 10 + (code c - 48)) r
  end.

Definition digits_value (s : string) : nat := digits_value_acc 0 s.

(** Greedy [\d+] / [\d*] and [\s*]. *)
Fixpoint take_digits (s : string) : string * string :=
  match s with
  | String c r =>
      if is_digit c then let '(d, rest) := take_digits r in (String c d, rest)
      else (EmptyString, s)
  | EmptyString => (EmptyString, EmptyString)
  end.

Fixpoint skip_spaces (s : string) : string :=
  match s with
  | String c r => if is_space c then skip_spaces r else s
  | EmptyString => EmptyString
  end.

(** A word boundary lies before [s] (given that a word character ends the
    text matched so far) iff [s] does not start with a word character. *)
Definition boundary_before (s : string) : bool :=
  match s with
  | String c _ => negb (is_word c)
  | EmptyString => true
  end.

(** [s] does not contain the character [c]. *)
Definition no_char (c : ascii) (s : string) : bool :=
  forallb (fun ch => negb (Ascii.eqb ch c)) (list_ascii_of_string s).

End JS.

Import JS.

(* ------------------------------------------------------------------ *)
(** ** Requests from the engine and [ResponseParser] *)

Module Parser.

(** [request.active[0].moves[i]] *)
Record MoveSlot := { move : string; disabled : bool }.

(** [request.active[0]]: its move list (possibly absent) and trap flag. *)
Record ActiveSlot := { moves : option (list MoveSlot); trapped : bool }.

(** [request.side.pokemon[i]] *)
Record Pokemon := { details : string; condition : string; active : bool }.

(** The fields of a Showdown request the code reads. [req_active] is
    [request.active?.[0]] and [side_pokemon] is [request.side?.pokemon];
    [None] is [undefined] (an empty array is still truthy). *)
Record Request := {
  wait : bool;
  teamPreview : bool;
  forceSwitch : bool;
  req_active : option ActiveSlot;
  side_pokemon : option (list Pokemon)
}.

(** [condition.endsWith(' fnt')] *)
Definition fainted (p : Pokemon) : bool := endsWith (condition p) " fnt".

(** [details.split(',')[0].toLowerCase()] *)
Definition species_name (p : Pokemon) : string :=
  toLowerCase (hd EmptyString (split "," (details p))).

Definition active_moves (req : Request) : option (list MoveSlot) :=
  match req_active req with
  | Some a => moves a
  | None => None
  end.

(** [request.active?.[0]?.trapped] *)
Definition is_trapped (req : Request) : bool :=
  match req_active req with
  | Some a => trapped a
  | None => false
  end.

(** [isValidMove] *)
Definition isValidMove (moveNum : nat) (req : Request) : bool :=
  match active_moves req with
  | None => false
  | Some ms =>
      if (moveNum <? 1) || (length ms <? moveNum) then false
      else match nth_error ms (moveNum - 1) with
           | Some m => negb (disabled m)
           | None => false
           end
  end.

(** [isValidSwitch] *)
Definition isValidSwitch (switchNum : nat) (req : Request) : bool :=
  match side_pokemon req with
  | None => false
  | Some ps =>
      if is_trapped req then false
      else if (switchNum <? 2) || (length ps <? switchNum) then false
      else match nth_error ps (switchNum - 1) with
           | Some t => negb (fainted t) && negb (active t)
           | None => false
           end
  end.

(** Matching [\b(?:kw1|kw2|...)\s*] followed by [tail] at the start of [s].
    Every keyword begins with a letter, so the leading [\b] holds iff the
    preceding character is not a word character. *)
Fixpoint match_keyword (kws : list string) (s : string) : option string :=
  match kws with
  | [] => None
  | k :: ks =>
      if String.prefix k s
      then Some (skip_spaces (substring (String.length k) (String.length s) s))
      else match_keyword ks s
  end.

(** [(\d+)\b] at the start of [s]: greedy digits; backtracking to a shorter
    run would put the boundary between two digits, where there is none. *)
Definition digits_then_boundary (s : string) : option string :=
  let '(d, rest) := take_digits s in
  match d with
  | EmptyString => None
  | _ => if boundary_before rest then Some d else None
  end.

(** Leftmost-match search: [prev_word] tells whether the character before
    the current position is a word character. *)
Fixpoint search (at_pos : string -> option string) (prev_word : bool)
    (s : string) : option string :=
  match (if prev_word then None else at_pos s) with
  | Some r => Some r
  | None =>
      match s with
      | EmptyString => None
      | String c r => search at_pos (is_word c) r
      end
  end.

(** [/\b(?:move|use|attack)\s*(\d+)\b/i], group 1 *)
Definition move_regex (text : string) : option string :=
  search (fun s => match match_keyword ["move"; "use"; "attack"] s with
                   | Some r => digits_then_boundary r
                   | None => None
                   end) false text.

(** [/\b(?:switch|swap|change)\s*(?:to\s* )?(\d+)\b/i] (the blank
    inside the group is not in the source), group 1. The
    optional [to\s*] is tried first; without it a digit would have to
    stand where the [t] is, so that alternative never matches. *)
Definition switch_regex (text : string) : option string :=
  search (fun s => match match_keyword ["switch"; "swap"; "change"] s with
                   | Some r =>
                       if String.prefix "to" r
                       then digits_then_boundary
                              (skip_spaces (substring 2 (String.length r) r))
                       else digits_then_boundary r
                   | None => None
                   end) false text.

Definition is_1_to_6 (c : ascii) : bool := (49 <=? code c) && (code c <=? 54).

(** [/\b([1-6]{6})\b/], group 1 *)
Definition order_regex (text : string) : option string :=
  search (fun s =>
            let d := substring 0 6 s in
            if (String.length d =? 6)
               && forallb is_1_to_6 (list_ascii_of_string d)
               && boundary_before (substring 6 (String.length s) s)
            then Some d else None) false text.

(** The successive steps of [ResponseParser.parse] on the lowercased,
    trimmed text; each returns [None] when control falls through. *)
Definition parse_move_number (text : string) (req : Request) : option string :=
  match move_regex text with
  | Some ds =>
      let moveNum := digits_value ds in
      if (1 <=? moveNum) && (moveNum <=? 4) && isValidMove moveNum req
      then Some ("move " ++ show_nat moveNum)%string else None
  | None => None
  end.

Definition parse_switch_number (text : string) (req : Request) : option string :=
  match switch_regex text with
  | Some ds =>
      let switchNum := digits_value ds in
      if (2 <=? switchNum) && (switchNum <=? 6) && isValidSwitch switchNum req
      then Some ("switch " ++ show_nat switchNum)%string else None
  | None => None
  end.

(** [for (let i = 1; i < pokemon.length; i++)] over [ps] from index [i]. *)
Fixpoint species_loop (text : string) (i : nat) (ps : list Pokemon)
    : option string :=
  match ps with
  | [] => None
  | p :: rest =>
      if includes text (species_name p) && negb (fainted p)
      then Some ("switch " ++ show_nat (i + 1))%string
      else species_loop text (S i) rest
  end.

Definition parse_species (text : string) (req : Request) : option string :=
  match side_pokemon req with
  | Some ps => species_loop text 1 (skipn 1 ps)
  | None => None
  end.

(** [for (let i = 0; i < moves.length; i++)] *)
Fixpoint move_name_loop (text : string) (i : nat) (ms : list MoveSlot)
    : option string :=
  match ms with
  | [] => None
  | m :: rest =>
      if includes text (toLowerCase (move m)) && negb (disabled m)
      then Some ("move " ++ show_nat (i + 1))%string
      else move_name_loop text (S i) rest
  end.

Definition parse_move_name (text : string) (req : Request) : option string :=
  match active_moves req with
  | Some ms => move_name_loop text 0 ms
  | None => None
  end.

Definition parse_default (text : string) (req : Request) : option string :=
  if teamPreview req && includes text "default" then Some "default" else None.

Definition parse_team_order (text : string) (req : Request) : option string :=
  if teamPreview req then
    match order_regex text with
    | Some d => Some ("team " ++ d)%string
    | None => None
    end
  else None.

Definition first_of (a b : option string) : option string :=
  match a with Some _ => a | None => b end.

(** [ResponseParser.parse]: [None] is [null]. *)
Definition parse (response : string) (req : Request) : option string :=
  let text := trim (toLowerCase response) in
  first_of (parse_move_number text req)
  (first_of (parse_switch_number text req)
  (first_of (parse_species text req)
  (first_of (parse_move_name text req)
  (first_of (parse_default text req)
            (parse_team_order text req))))).

(** [xs.map((x, i) => ({x, index: i + start})).filter(..).map(p => p.index)] *)
Fixpoint indices_where {A} (f : nat -> A -> bool) (i : nat) (xs : list A)
    : list nat :=
  match xs with
  | [] => []
  | x :: rest =>
      if f i x then i :: indices_where f (S i) rest
      else indices_where f (S i) rest
  end.

(** [getValidMoves] *)
Definition getValidMoves (req : Request) : list nat :=
  match active_moves req with
  | Some ms => indices_where (fun _ m => negb (disabled m)) 1 ms
  | None => []
  end.

(** [getValidSwitches] *)
Definition getValidSwitches (req : Request) : list nat :=
  match side_pokemon req with
  | Some ps =>
      indices_where (fun i p => (1 <? i) && negb (fainted p) && negb (active p)) 1 ps
  | None => []
  end.

Definition move_cmd (n : nat) : string := ("move " ++ show_nat n)%string.
Definition switch_cmd (n : nat) : string := ("switch " ++ show_nat n)%string.

(** [getRandomValidChoice]. The draw [Math.floor(Math.random() * n)] is an
    index in [0, n); it is written [r mod n] for an arbitrary draw [r], so
    that a uniform [r] over a multiple of [n] values gives a uniform index. *)
Definition getRandomValidChoice (req : Request) (r : nat) : string :=
  if forceSwitch req then
    match getValidSwitches req with
    | [] => "pass"
    | vs => switch_cmd (nth (r mod length vs) vs 0)
    end
  else if teamPreview req then "default"
  else match req_active req with
  | Some a =>
      let validMoves := getValidMoves req in
      let validSwitches := if trapped a then [] else getValidSwitches req in
      let allChoices := (map move_cmd validMoves ++ map switch_cmd validSwitches)%list in
      match allChoices with
      | [] => "pass"
      | _ => nth (r mod length allChoices) allChoices "pass"
      end
  | None => "pass"
  end.

End Parser.

(** The legal action set as the spec words it (section 4.3, random
    valid-choice generator): on a forced switch, every non-fainted,
    non-active roster member as a switch; on team preview, ["default"];
    otherwise every non-disabled move, plus, unless trapped, every
    non-fainted non-active roster member. Compared with [getRandomValidChoice]. *)
Module SpecLegal.
Import Parser.

Definition spec_switch_targets (req : Request) : list nat :=
  match side_pokemon req with
  | Some ps => indices_where (fun _ p => negb (fainted p) && negb (active p)) 1 ps
  | None => []
  end.

Definition spec_move_slots (req : Request) : list nat :=
  match active_moves req with
  | Some ms => indices_where (fun _ m => negb (disabled m)) 1 ms
  | None => []
  end.

Definition spec_legal_set (req : Request) : list string :=
  if forceSwitch req then map switch_cmd (spec_switch_targets req)
  else if teamPreview req then ["default"]
  else (map move_cmd (spec_move_slots req)
        ++ (if is_trapped req then [] else map switch_cmd (spec_switch_targets req)))%list.

(** The request kinds the engine sends to a side that must act: team
    preview, forced switch, or a move request carrying its active slot. *)
Definition actionable (req : Request) : Prop :=
  wait req = false /\
  (teamPreview req = true \/ forceSwitch req = true \/ req_active req <> None).

(** In a singles request the engine lists the active Pokemon first. *)
Definition lead_is_active (req : Request) : Prop :=
  match side_pokemon req with
  | Some (p :: _) => active p = true
  | _ => True
  end.

End SpecLegal.

(* ------------------------------------------------------------------ *)
(** ** [SimulatorBridge.listenToStream] and [ActiveBattle]'s listeners *)

(** A JS number as the turn field can hold it: an integer or [NaN]
    ([parseInt] of a non-numeric string). *)
Inductive jsnum := JNum (z : Z) | JNaN.

(** [parseInt(s, 10)]: leading white space, an optional sign, then the
    longest run of decimal digits; no digit gives [NaN]. *)
Definition parseInt (s : string) : jsnum :=
  let s1 := skip_spaces s in
  let '(sign, s2) :=
    match s1 with
    | String "-"%char r => ((-1)%Z, r)
    | String "+"%char r => (1%Z, r)
    | _ => (1%Z, s1)
    end in
  match take_digits s2 with
  | (EmptyString, _) => JNaN
  | (ds, _) => JNum (sign * Z.of_nat (digits_value ds))%Z
  end.

(** [Math.max(a, b)] *)
Definition js_max (a b : jsnum) : jsnum :=
  match a, b with
  | JNum x, JNum y => JNum (Z.max x y)
  | _, _ => JNaN
  end.

Module Bridge.
Local Open Scope list_scope.

(** Line terminators, which [.] does not match. *)
Definition is_line_terminator (c : ascii) : bool :=
  (code c =? 10) || (code c =? 13).

Fixpoint take_line (s : string) : string :=
  match s with
  | String c r => if is_line_terminator c then EmptyString else String c (take_line r)
  | EmptyString => EmptyString
  end.

(** [chunk.match(/\|win\|(.+)/)], group 1: the leftmost ["|win|"] that is
    followed by at least one character of the same line. *)
Fixpoint win_regex (s : string) : option string :=
  match (if String.prefix "|win|" s
         then match take_line (substring 5 (String.length s) s) with
              | EmptyString => None
              | w => Some w
              end
         else None) with
  | Some w => Some w
  | None => match s with
            | EmptyString => None
            | String _ r => win_regex r
            end
  end.

(** [parseWinner]: [None] is [{ winner: null }] (a tie). *)
Definition parseWinner (chunk : string) : option string := win_regex chunk.

(** What the bridge emits, in order. *)
Inductive BridgeEvent :=
| EvUpdate (chunk : string)
| EvInitialState (chunks : list string)  (** [resolveInitialState] *)
| EvEnd (winner : option string)
| EvError.

Record BridgeState := {
  ended : bool;                      (** [_ended] *)
  bridgeLog : list string;           (** [battleLog] *)
  initialChunks : list string;
  initialStateResolved : bool;
  events : list BridgeEvent          (** emitted so far, oldest first *)
}.

Definition fresh_bridge : BridgeState :=
  {| ended := false; bridgeLog := []; initialChunks := [];
     initialStateResolved := false; events := [] |}.

(** One iteration of the [for await] loop body of [listenToStream]. *)
Definition on_chunk (b : BridgeState) (chunk : string) : BridgeState :=
  let b1 := {| ended := ended b; bridgeLog := bridgeLog b ++ [chunk];
               initialChunks := initialChunks b;
               initialStateResolved := initialStateResolved b;
               events := events b ++ [EvUpdate chunk] |} in
  let b2 :=
    if initialStateResolved b1 then b1
    else
      let ic := initialChunks b1 ++ [chunk] in
      if includes chunk "|switch|" || includes chunk "|turn|"
      then {| ended := ended b1; bridgeLog := bridgeLog b1; initialChunks := ic;
              initialStateResolved := true;
              events := events b1 ++ [EvInitialState ic] |}
      else {| ended := ended b1; bridgeLog := bridgeLog b1; initialChunks := ic;
              initialStateResolved := false; events := events b1 |} in
  if includes chunk "|win|" || includes chunk "|tie|"
  then {| ended := true; bridgeLog := bridgeLog b2; initialChunks := initialChunks b2;
          initialStateResolved := initialStateResolved b2;
          events := events b2 ++ [EvEnd (parseWinner chunk)] |}
  else b2.

(** How the omniscient stream stops: it closes, or it throws. *)
Inductive StreamEnd := Closed | Failed.

(** [listenToStream] over the chunks the stream yields, then its end; a
    thrown error is caught and re-emitted as ['error']. *)
Definition listenToStream (b : BridgeState) (chunks : list string) (e : StreamEnd)
    : BridgeState :=
  let b' := fold_left on_chunk chunks b in
  match e with
  | Closed => b'
  | Failed => {| ended := ended b'; bridgeLog := bridgeLog b';
                 initialChunks := initialChunks b';
                 initialStateResolved := initialStateResolved b';
                 events := events b' ++ [EvError] |}
  end.

End Bridge.

(* ------------------------------------------------------------------ *)
(** ** [ActiveBattle]: turn tracking *)

Module Turns.
Import Parser.

(** The turn effect of [logBattleEvents]: for every line of the chunk
    that starts with ["|turn|"], [this.turn = parseInt(line.split('|')[2])].
    The other branches of the [else if] chain do not touch [turn]. *)
Definition turn_of_line (line : string) (turn : jsnum) : jsnum :=
  if startsWith line "|turn|" then
    match nth_error (split "|" line) 2 with
    | Some field => parseInt field
    | None => JNaN
    end
  else turn.

Definition logBattleEvents_turn (chunk : string) (turn : jsnum) : jsnum :=
  fold_left (fun t line => turn_of_line line t) (split (ascii_of_nat 10) chunk) turn.

(** [ActiveBattle.turn] and the two [LLMPlayer.turn] counters. *)
Record TurnState := { turn : jsnum; p1turn : nat; p2turn : nat }.

Definition initial_turns : TurnState := {| turn := JNum 0; p1turn := 0; p2turn := 0 |}.

Inductive Side := P1 | P2.

(** What moves the turn fields: an omniscient chunk, a request reaching a
    side's [receiveRequest], or a side's [onDecision] callback. *)
Inductive TurnEvent :=
| TChunk (chunk : string)
| TRequest (s : Side) (req : Request)
| TDecision (s : Side).

(** [receiveRequest]: return on [wait]; count [active] or [forceSwitch]
    requests ([request.active] is present exactly when its first slot is). *)
Definition bump (req : Request) (n : nat) : nat :=
  if wait req then n
  else if match req_active req with Some _ => true | None => false end
          || forceSwitch req
  then S n else n.

(** p1's [onDecision]: [this.turn = this.p1Player?.getTurn() || this.turn]. *)
Definition onDecision_p1 (st : TurnState) : TurnState :=
  {| turn := match p1turn st with 0 => turn st | n => JNum (Z.of_nat n) end;
     p1turn := p1turn st; p2turn := p2turn st |}.

(** p2's [onDecision]:
    [this.turn = Math.max(this.turn, this.p2Player?.getTurn() || 0)]. *)
Definition onDecision_p2 (st : TurnState) : TurnState :=
  {| turn := js_max (turn st) (JNum (Z.of_nat (p2turn st)));
     p1turn := p1turn st; p2turn := p2turn st |}.

Definition turn_step (st : TurnState) (e : TurnEvent) : TurnState :=
  match e with
  | TChunk c => {| turn := logBattleEvents_turn c (turn st);
                   p1turn := p1turn st; p2turn := p2turn st |}
  | TRequest P1 req => {| turn := turn st; p1turn := bump req (p1turn st);
                          p2turn := p2turn st |}
  | TRequest P2 req => {| turn := turn st; p1turn := p1turn st;
                          p2turn := bump req (p2turn st) |}
  | TDecision P1 => onDecision_p1 st
  | TDecision P2 => onDecision_p2 st
  end.

Definition run_turns (st : TurnState) (es : list TurnEvent) : TurnState :=
  fold_left turn_step es st.

End Turns.

(* ------------------------------------------------------------------ *)
(** ** A session: the bridge and [ActiveBattle]'s listeners on it *)

Module Session.
Import Bridge.
Local Open Scope list_scope.

(** What observers receive through the socket layer. *)
Inductive ObsEvent :=
| ObsUpdate (chunk : string)           (** [emitBattleUpdate] *)
| ObsEnd (winner : option string).     (** [emitBattleEnd] *)

Record Session := {
  bridge : BridgeState;
  sturn : jsnum;                     (** [ActiveBattle.turn] *)
  swinner : option string;           (** [ActiveBattle.winner] *)
  slog : list string;                (** [ActiveBattle.battleLog] *)
  observed : list ObsEvent;
  saves : list (option string)       (** [saveBattle] calls, by winner *)
}.

Definition fresh_session : Session :=
  {| bridge := fresh_bridge; sturn := JNum 0; swinner := None; slog := [];
     observed := []; saves := [] |}.

(** The Node process running the session: still running, or exited
    with a code; [Exited] keeps the session as it was when the process
    died. *)
Inductive Process :=
| Running (s : Session)
| Exited (code : nat) (s : Session).

Definition session_of (p : Process) : Session :=
  match p with Running s | Exited _ s => s end.

Definition exit_code (p : Process) : option nat :=
  match p with Running _ => None | Exited c _ => Some c end.

(** [ActiveBattle]'s reaction to one bridge event. On ['end'] it sets
    [winner], emits its own ['end'] (whose [BattleManager] listener calls
    [saveBattle]) and then [emitBattleEnd]. Resolving the initial state
    only unblocks [start]. The bridge has no ['error'] listener, so
    [this.emit('error', error)] in [listenToStream]'s catch throws; the
    promise of [listenToStream], called without [await] in [start], then
    rejects with no handler, and Node terminates the process with exit
    code 1. *)
Definition react (s : Session) (ev : BridgeEvent) : Process :=
  match ev with
  | EvUpdate chunk =>
      Running {| bridge := bridge s; sturn := Turns.logBattleEvents_turn chunk (sturn s);
                 swinner := swinner s; slog := slog s ++ [chunk];
                 observed := observed s ++ [ObsUpdate chunk]; saves := saves s |}
  | EvEnd w =>
      Running {| bridge := bridge s; sturn := sturn s; swinner := w; slog := slog s;
                 observed := observed s ++ [ObsEnd w]; saves := saves s ++ [w] |}
  | EvInitialState _ => Running s
  | EvError => Exited 1 s
  end.

(** Listeners run synchronously, in emission order; nothing runs after
    the process has exited. *)
Definition react_step (p : Process) (ev : BridgeEvent) : Process :=
  match p with
  | Running s => react s ev
  | Exited _ _ => p
  end.

(** The events the bridge emitted since it was in state [b]. *)
Definition new_events (b b' : BridgeState) : list BridgeEvent :=
  skipn (length (events b)) (events b').

Definition with_bridge (b : BridgeState) (s : Session) : Session :=
  {| bridge := b; sturn := sturn s; swinner := swinner s; slog := slog s;
     observed := observed s; saves := saves s |}.

Definition set_bridge (b : BridgeState) (p : Process) : Process :=
  match p with
  | Running s => Running (with_bridge b s)
  | Exited c s => Exited c (with_bridge b s)
  end.

(** A chunk arriving on the omniscient stream: the bridge handles it and
    every event it emits reaches the listeners. *)
Definition deliver (p : Process) (chunk : string) : Process :=
  match p with
  | Running s =>
      let b' := on_chunk (bridge s) chunk in
      set_bridge b' (fold_left react_step (new_events (bridge s) b') (Running s))
  | Exited _ _ => p
  end.

(** The stream's termination after its last chunk. *)
Definition terminate (p : Process) (e : StreamEnd) : Process :=
  match p with
  | Running s =>
      let b' := listenToStream (bridge s) [] e in
      set_bridge b' (fold_left react_step (new_events (bridge s) b') (Running s))
  | Exited _ _ => p
  end.

Definition run_stream (s : Session) (chunks : list string) (e : StreamEnd) : Process :=
  terminate (fold_left deliver chunks (Running s)) e.

(** [ActiveBattle.getStatus().active] *)
Definition status_active (s : Session) : bool := negb (ended (bridge s)).

End Session.

(* ------------------------------------------------------------------ *)
(** ** [LLMPlayer.receiveRequest] and its deadline race *)

Module Player.
Local Set Warnings "-abstract-large-number".
Import Parser.

(** [config.battle.llmTimeout] *)
Definition llmTimeout : nat := 30000.

(** [LLMResponse]: [text] and optional [reasoning]. *)
Record LLMResponse := { rtext : string; rreasoning : option string }.

(** How [adapter.decide(context)] settles, [t] ms after it was called:
    it resolves (possibly to a falsy value, [None]), it rejects, or it
    never settles. *)
Inductive DecideOutcome :=
| Resolves (t : nat) (v : option LLMResponse)
| Rejects (t : nat)
| Never.

(** What [Promise.race([decide, timeout(ms)])] yields and when. The timer
    resolves to [null] at [ms]; a call settling at [t <= ms] is taken to
    win (a tie at [t = ms] is not decided by the language). *)
Inductive RaceResult := RaceValue (v : option LLMResponse) | RaceThrow.

Definition race (d : DecideOutcome) (ms : nat) : RaceResult * nat :=
  match d with
  | Resolves t v => if t <=? ms then (RaceValue v, t) else (RaceValue None, ms)
  | Rejects t => if t <=? ms then (RaceThrow, t) else (RaceValue None, ms)
  | Never => (RaceValue None, ms)
  end.

(** The decision a request resolves to: [choice], [reasoning],
    [decisionTime] and the local [usedFallback] flag, which the source
    prints with the submitted choice. *)
Record Decision := {
  choice : string;
  reasoning : option string;
  decisionTime : nat;
  usedFallback : bool
}.

(** [receiveRequest] on a non-[wait] request, with the race's
    settlement time as the clock and [overhead] the ms of synchronous work
    after it (parsing, the fallback draw). [r] is the fallback's random
    draw. The result's [choice] is what [this.choose] submits. *)
Definition decide_request (req : Request) (d : DecideOutcome) (ms overhead r : nat)
    : Decision :=
  let '(res, settled) := race d ms in
  let fallback reasoning :=
    {| choice := getRandomValidChoice req r; reasoning := reasoning;
       decisionTime := settled + overhead; usedFallback := true |} in
  match res with
  | RaceValue None => fallback None             (** [throw new Error('LLM timeout')] *)
  | RaceThrow => fallback None                  (** the [catch] branch *)
  | RaceValue (Some resp) =>
      match parse (rtext resp) req with
      | Some c => {| choice := c; reasoning := rreasoning resp;
                     decisionTime := settled + overhead; usedFallback := false |}
      | None => fallback (rreasoning resp)
      end
  end.

(** [receiveRequest]: [None] when the request is a [wait] (nothing is
    submitted), otherwise the decision whose choice is submitted. *)
Definition receiveRequest (req : Request) (d : DecideOutcome) (ms overhead r : nat)
    : option Decision :=
  if wait req then None else Some (decide_request req d ms overhead r).

End Player.

(* ------------------------------------------------------------------ *)
(** ** [BattleManager.startBattle]: the single-session gate *)

Module Manager.

(** Every [ActiveBattle] ever created, by index, with its bridge's
    [ended] flag, and the [activeBattle] slot. *)
Record Manager := {
  sessions : list bool;
  activeBattle : option nat
}.

Definition initial_manager : Manager := {| sessions := []; activeBattle := None |}.

Definition isEnded (m : Manager) (i : nat) : bool := nth i (sessions m) true.

Inductive StartResult := AlreadyInProgress | Started (battleId : nat).

(** The synchronous prefix of [startBattle], lines 452-459: the check,
    the new [ActiveBattle] and its installation in [activeBattle]. It has
    no [await], so in the single-threaded event loop it is one step; the
    [await this.activeBattle.start()] comes after the installation. *)
Definition startBattle (m : Manager) : StartResult * Manager :=
  match activeBattle m with
  | Some i => if negb (isEnded m i) then (AlreadyInProgress, m)
              else (Started (length (sessions m)),
                    {| sessions := sessions m ++ [false];
                       activeBattle := Some (length (sessions m)) |})
  | None => (Started (length (sessions m)),
             {| sessions := sessions m ++ [false];
                activeBattle := Some (length (sessions m)) |})
  end.

(** [nth i := true] on the [ended] flags. *)
Fixpoint set_ended (i : nat) (l : list bool) : list bool :=
  match l, i with
  | [], _ => []
  | _ :: r, 0 => true :: r
  | x :: r, S k => x :: set_ended k r
  end.

(** A session's bridge sets [_ended] ([|win|]/[|tie|] chunk, [forceEnd],
    [destroy]); nothing sets it back for an existing session. *)
Definition endSession (m : Manager) (i : nat) : Manager :=
  {| sessions := set_ended i (sessions m); activeBattle := activeBattle m |}.

(** The steps of the event loop that touch the gate. *)
Inductive step : Manager -> Manager -> Prop :=
| StepStart m r m' : startBattle m = (r, m') -> step m m'
| StepEnd m i : step m (endSession m i).

Inductive reachable : Manager -> Prop :=
| ReachInit : reachable initial_manager
| ReachStep m m' : reachable m -> step m m' -> reachable m'.

(** Sessions whose status is Active ([!isEnded()]). *)
Definition active_count (m : Manager) : nat := count_occ Bool.bool_dec (sessions m) false.

End Manager.

(* ------------------------------------------------------------------ *)
(** ** Sample requests *)

Module Samples.
Import Parser.

Definition mv (name : string) (dis : bool) : MoveSlot := {| move := name; disabled := dis |}.
Definition mon (d c : string) (a : bool) : Pokemon := {| details := d; condition := c; active := a |}.

Definition roster : list Pokemon :=
  [mon "Pikachu, L85, M" "200/200" true; mon "Charizard, L80, F" "0 fnt" false;
   mon "Mew, L70" "150/150" false; mon "Snorlax, L80" "300/300" false].

(** A move request whose move slot 2 (Quick Attack) is disabled. *)
Definition move_request (trap : bool) : Request :=
  {| wait := false; teamPreview := false; forceSwitch := false;
     req_active := Some {| moves := Some [mv "Thunderbolt" false; mv "Quick Attack" true;
                                         mv "Iron Tail" false; mv "Volt Tackle" false];
                           trapped := trap |};
     side_pokemon := Some roster |}.

Definition team_preview_request : Request :=
  {| wait := false; teamPreview := true; forceSwitch := false;
     req_active := None; side_pokemon := Some roster |}.

(** A forced switch after a faint: no active slot in the request. *)
Definition force_request : Request :=
  {| wait := false; teamPreview := false; forceSwitch := true;
     req_active := None; side_pokemon := Some roster |}.

End Samples.


(* ------------------------------------------------------------------ *)
(** ** [ClaudeAdapter.decide]: from the reply to an [LLMResponse] *)

Module Claude.
Import Player.
Local Open Scope list_scope.

Definition nl : ascii := ascii_of_nat 10.
Definition nl_string : string := String nl EmptyString.

(** [xs.join(sep)] *)
Fixpoint join (sep : string) (xs : list string) : string :=
  match xs with
  | [] => EmptyString
  | [x] => x
  | x :: rest => (x ++ sep ++ join sep rest)%string
  end.

(** A block of [response.content]. *)
Inductive ContentBlock := TextBlock (text : string) | OtherBlock.

(** [.filter(block => block.type === 'text').map(block => block.text)] *)
Fixpoint text_blocks (bs : list ContentBlock) : list string :=
  match bs with
  | [] => []
  | TextBlock t :: rest => t :: text_blocks rest
  | OtherBlock :: rest => text_blocks rest
  end.

(** Lines 101-116 of [decide]: the text blocks joined with ['\n'], the
    first line of the trimmed text as the command and the trimmed rest as
    the reasoning, [undefined] ([None]) when empty. ([lines] is never
    empty, so [lines[0]] is defined.) *)
Definition decide_response (content : list ContentBlock) : LLMResponse :=
  let text := join nl_string (text_blocks content) in
  let lines := split nl (trim text) in
  let command := hd EmptyString lines in
  let reasoning := trim (join nl_string (tl lines)) in
  {| rtext := command;
     rreasoning := match reasoning with EmptyString => None | _ => Some reasoning end |}.

End Claude.

(* ------------------------------------------------------------------ *)
(** ** [ActiveBattle.logBattleEvents]: the dialogue it triggers *)

Module Dialogue.
Import Turns.
Local Open Scope list_scope.

(** [LLMConfig]: the two fields the battle code reads. *)
Record LLMConfig := { provider : string; model : string }.

Inductive DialogueEventType :=
| battle_start | own_faint | opponent_faint | super_effective
| critical_hit | win | loss | trash_talk.

(** A [generateDialogue(player, context)] call, with the fields of the
    [DialogueContext] the battle code fills in ([None] is absent). *)
Record DialogueCall := {
  dplayer : Side;
  dtype : DialogueEventType;
  dopponent : LLMConfig;
  dturn : jsnum;
  ownPokemon : option string;
  opponentPokemon : option string;
  moveName : option string
}.

(** The [ActiveBattle] fields [logBattleEvents] reads and writes, the
    number of [Math.random()] values drawn so far, and the dialogue calls
    made so far, oldest first. *)
Record LogState := {
  lturn : jsnum;                   (** [this.turn] *)
  lastTrashTalkTurn : Z;
  lastMoveUser : option Side;
  rng : nat;
  calls : list DialogueCall
}.

Definition initial_log : LogState :=
  {| lturn := JNum 0; lastTrashTalkTurn := 0; lastMoveUser := None; rng := 0;
     calls := [] |}.

Definition other (s : Side) : Side := match s with P1 => P2 | P2 => P1 end.

(** [x.startsWith('p1') ? 'p1' : 'p2'] *)
Definition side_of (id : string) : Side := if startsWith id "p1" then P1 else P2.

(** [line.split('|')[i]]; [None] is [undefined]. *)
Definition field (line : string) (i : nat) : option string := nth_error (split "|" line) i.

(** [x || d] on a string that may be [undefined]. *)
Definition or_else (o : option string) (d : string) : string :=
  match o with
  | Some (String c r) => String c r
  | _ => d
  end.

(** [x < y] on the values of [Math.random()]. *)
Definition q_lt (x y : Q) : bool := negb (Qle_bool y x).

Definition with_turn (st : LogState) (t : jsnum) : LogState :=
  {| lturn := t; lastTrashTalkTurn := lastTrashTalkTurn st;
     lastMoveUser := lastMoveUser st; rng := rng st; calls := calls st |}.

Definition with_calls (st : LogState) (cs : list DialogueCall) : LogState :=
  {| lturn := lturn st; lastTrashTalkTurn := lastTrashTalkTurn st;
     lastMoveUser := lastMoveUser st; rng := rng st; calls := (calls st ++ cs)%list |}.

Definition mk_call (p : Side) (ty : DialogueEventType) (opp : LLMConfig) (t : jsnum)
    : DialogueCall :=
  {| dplayer := p; dtype := ty; dopponent := opp; dturn := t;
     ownPokemon := None; opponentPokemon := None; moveName := None |}.

Section Log.

(** The two players' configurations. *)
Variables p1Config p2Config : LLMConfig.

(** The successive values of [Math.random()], each in [0, 1). *)
Variable rand : nat -> Q.

Definition config_of (s : Side) : LLMConfig :=
  match s with P1 => p1Config | P2 => p2Config end.

(** [side === 'p1' ? this.p2Config : this.p1Config] *)
Definition opponent_of (s : Side) : LLMConfig := config_of (other s).

Definition console_only_prefixes_1 : list string := ["|switch|"; "|drag|"].
Definition console_only_prefixes_2 : list string := ["|-damage|"; "|-heal|"].
Definition console_only_prefixes_3 : list string :=
  ["|-miss|"; "|-immune|"; "|-status|"; "|-boost|"; "|-unboost|"; "|-weather|"].

Definition starts_any (line : string) (ps : list string) : bool :=
  existsb (startsWith line) ps.

(** The [|turn|] branch: set [this.turn]; then, if [turnNum -
    lastTrashTalkTurn >= 3] (false for [NaN]), draw [Math.random() < 0.2]
    and, on success, draw the trasher with [Math.random() < 0.5]. *)
Definition turn_line (st : LogState) (line : string) : LogState :=
  let turnNum := match field line 2 with Some f => parseInt f | None => JNaN end in
  let st1 := with_turn st turnNum in
  match turnNum with
  | JNum t =>
      if (3 <=? t - lastTrashTalkTurn st1)%Z then
        if q_lt (rand (rng st1)) (1 # 5) then
          let trasher := if q_lt (rand (S (rng st1))) (1 # 2) then P1 else P2 in
          {| lturn := lturn st1; lastTrashTalkTurn := t;
             lastMoveUser := lastMoveUser st1; rng := S (S (rng st1));
             calls := (calls st1 ++ [mk_call trasher trash_talk (opponent_of trasher)
                                             (JNum t)])%list |}
        else
          {| lturn := lturn st1; lastTrashTalkTurn := lastTrashTalkTurn st1;
             lastMoveUser := lastMoveUser st1; rng := S (rng st1);
             calls := calls st1 |}
      else st1
  | JNaN => st1
  end.

(** One iteration of the [for (const line of lines)] loop: the branches
    of the [else if] chain in source order; those that only print are
    kept so that a line takes the same branch. [lastMoveName] is the local
    of the call. For the [|move|], [|faint|] and [|win|] lines
    [parts[2]] exists, as the line starts with the marker. *)
Definition log_line (lastMoveName : option string) (st : LogState) (line : string)
    : option string * LogState :=
  if startsWith line "|turn|" then (lastMoveName, turn_line st line)
  else if starts_any line console_only_prefixes_1 then (lastMoveName, st)
  else if startsWith line "|move|" then
    let attacker := or_else (field line 2) "" in
    (field line 3,
     {| lturn := lturn st; lastTrashTalkTurn := lastTrashTalkTurn st;
        lastMoveUser := Some (side_of attacker); rng := rng st; calls := calls st |})
  else if starts_any line console_only_prefixes_2 then (lastMoveName, st)
  else if startsWith line "|faint|" then
    let pokemon := or_else (field line 2) "" in
    let faintedSide := side_of pokemon in
    let pokemonName :=
      or_else (option_map trim (nth_error (split ":" pokemon) 1)) "Pokemon" in
    let winnerSide := other faintedSide in
    (lastMoveName,
     with_calls st
       [{| dplayer := faintedSide; dtype := own_faint;
           dopponent := opponent_of faintedSide; dturn := lturn st;
           ownPokemon := Some pokemonName; opponentPokemon := None; moveName := None |};
        {| dplayer := winnerSide; dtype := opponent_faint;
           dopponent := opponent_of winnerSide; dturn := lturn st;
           ownPokemon := None; opponentPokemon := Some pokemonName; moveName := None |}])
  else if startsWith line "|-supereffective|" then
    (lastMoveName,
     match lastMoveUser st with
     | Some u =>
         with_calls st
           [{| dplayer := u; dtype := super_effective; dopponent := opponent_of u;
               dturn := lturn st; ownPokemon := None; opponentPokemon := None;
               moveName := Some (or_else lastMoveName "attack") |}]
     | None => st
     end)
  else if startsWith line "|-resisted|" then (lastMoveName, st)
  else if startsWith line "|-crit|" then
    (lastMoveName,
     match lastMoveUser st with
     | Some u => with_calls st [mk_call u critical_hit (opponent_of u) (lturn st)]
     | None => st
     end)
  else if starts_any line console_only_prefixes_3 then (lastMoveName, st)
  else if startsWith line "|win|" then
    let winner := or_else (field line 2) "" in
    let p1Won := includes winner (provider p1Config) in
    (lastMoveName,
     with_calls st
       [mk_call P1 (if p1Won then win else loss) p2Config (lturn st);
        mk_call P2 (if p1Won then loss else win) p1Config (lturn st)])
  else (lastMoveName, st).

(** [logBattleEvents(chunk)]: [lastMoveName] starts as [null] for every
    chunk; [lastMoveUser] is a field and persists. *)
Definition logBattleEvents (st : LogState) (chunk : string) : LogState :=
  snd (fold_left (fun acc line => log_line (fst acc) (snd acc) line)
                 (split (ascii_of_nat 10) chunk) (None, st)).

End Log.

(** The winner columns the ['end'] listener of [BattleManager.startBattle]
    writes (lines 466-481): nothing for a falsy winner, p1's side,
    provider and model if the winner string contains p1's provider,
    otherwise p2's. *)
Definition end_winner (p1 p2 : LLMConfig) (winner : option string)
    : option (Side * LLMConfig) :=
  match winner with
  | Some (String c r) =>
      if includes (String c r) (provider p1) then Some (P1, p1) else Some (P2, p2)
  | _ => None
  end.

(** The name a player is registered under with the simulator
    ([ActiveBattle.start]): ["provider/model"]. *)
Definition player_name (c : LLMConfig) : string := (provider c ++ "/" ++ model c)%string.

(** The turn numbers of the trash-talk calls, oldest first. *)
Fixpoint trash_turns (cs : list DialogueCall) : list jsnum :=
  match cs with
  | [] => []
  | c :: rest =>
      match dtype c with
      | trash_talk => dturn c :: trash_turns rest
      | _ => trash_turns rest
      end
  end.

(** Each turn number is at least 3 above the previous one, starting from
    [last]. *)
Fixpoint spaced (last : Z) (ts : list jsnum) : Prop :=
  match ts with
  | [] => True
  | JNum t :: rest => (last + 3 <= t)%Z /\ spaced t rest
  | JNaN :: _ => False
  end.

(** The last of the turn numbers, [last] when there is none. *)
Fixpoint last_trash (last : Z) (ts : list jsnum) : Z :=
  match ts with
  | [] => last
  | JNum t :: rest => last_trash t rest
  | JNaN :: rest => last_trash last rest
  end.

(** The trash-talk bookkeeping: the calls' turns are spaced, and the last
    of them is [lastTrashTalkTurn]. *)
Definition trash_inv (st : LogState) : Prop :=
  spaced 0 (trash_turns (calls st)) /\ last_trash 0 (trash_turns (calls st)) = lastTrashTalkTurn st.

End Dialogue.

(* ------------------------------------------------------------------ *)
(** ** [AdapterFactory.create], [BattleManager] with configurations, and
    the [/battle] routes *)

Module Routes.
Import Manager Dialogue.
Local Open Scope list_scope.

(** [AdapterFactory.create]: [None] when an adapter is built, [Some msg]
    when it throws [new Error(msg)]. Each of the five known providers
    calls its adapter's constructor; [ctor p] is how the constructor of
    provider [p]'s adapter ends ([None] when it returns, [Some msg] when it
    throws). The constructors throw when their API key is missing
    (["ANTHROPIC_API_KEY is not set"], ["OPENAI_API_KEY is not set"],
    ["GOOGLE_AI_API_KEY is not set"], ["XAI_API_KEY is not set"]). *)
Definition create (ctor : string -> option string) (c : LLMConfig) : option string :=
  if String.eqb (provider c) "claude" then ctor "claude"
  else if String.eqb (provider c) "openai" then ctor "openai"
  else if String.eqb (provider c) "google" then ctor "google"
  else if String.eqb (provider c) "xai" then ctor "xai"
  else if String.eqb (provider c) "deepseek" then ctor "deepseek"
  else Some ("Unknown LLM provider: " ++ provider c)%string.

(** The providers [create] has a case for. *)
Definition known_provider (p : string) : bool :=
  existsb (String.eqb p) ["claude"; "openai"; "google"; "xai"; "deepseek"].

(** The [ActiveBattle] constructor: p1's adapter, then p2's (the bridge
    and the dialogue adapters cannot throw). *)
Definition newActiveBattle (ctor : string -> option string) (p1 p2 : LLMConfig)
    : option string :=
  match create ctor p1 with
  | Some e => Some e
  | None => create ctor p2
  end.

Inductive StartOutcome := StartOk (battleId : nat) | StartThrow (msg : string).

(** The synchronous prefix of [BattleManager.startBattle(p1, p2)]
    (lines 452-459) with the constructor's exceptions: a throw leaves
    [activeBattle] as it was. *)
Definition startBattleCfg (ctor : string -> option string) (p1 p2 : LLMConfig) (m : Manager)
    : StartOutcome * Manager :=
  let build :=
    match newActiveBattle ctor p1 p2 with
    | Some e => (StartThrow e, m)
    | None => (StartOk (length (sessions m)),
               {| sessions := sessions m ++ [false];
                  activeBattle := Some (length (sessions m)) |})
    end in
  match activeBattle m with
  | Some i => if negb (isEnded m i) then (StartThrow "Battle already in progress", m)
              else build
  | None => build
  end.

(** [POST /start]: the HTTP status and the manager afterwards. [p1] and
    [p2] are the body's configurations ([None] when absent; an empty
    provider is falsy). [startResult] is how [await activeBattle.start()]
    settles: [None] when it resolves, [Some msg] when it rejects. An
    error whose message does not include ["already in progress"] is
    rethrown, which Fastify answers with 500. *)
Definition start_route (ctor : string -> option string) (startResult : option string)
    (p1 p2 : option LLMConfig) (m : Manager) : nat * Manager :=
  let err_status msg := if includes msg "already in progress" then 409 else 500 in
  match p1, p2 with
  | Some c1, Some c2 =>
      if String.eqb (provider c1) "" || String.eqb (provider c2) "" then (400, m)
      else
        match startBattleCfg ctor c1 c2 m with
        | (StartOk _, m') =>
            (match startResult with None => 200 | Some msg => err_status msg end, m')
        | (StartThrow msg, m') => (err_status msg, m')
        end
  | _, _ => (400, m)
  end.

(** [GET /status]: [battleManager.getStatus().active]. *)
Definition status_route (m : Manager) : bool :=
  match activeBattle m with
  | None => false
  | Some i => negb (isEnded m i)
  end.

(** [GET /log]: the [active] field of the reply. *)
Definition log_route_active (m : Manager) : bool :=
  match activeBattle m with
  | None => false
  | Some _ => true
  end.

(** [POST /end] once [battle.forceEnd()] has finished: 404 without a
    current battle; otherwise the bridge's [_ended] is set. *)
Definition end_route (m : Manager) : nat * Manager :=
  match activeBattle m with
  | None => (404, m)
  | Some i => (200, endSession m i)
  end.

(** Configurations of two providers, and adapter constructors that all
    return (every API key set). *)
Definition claude_sonnet : LLMConfig := {| provider := "claude"; model := "sonnet" |}.
Definition claude_opus : LLMConfig := {| provider := "claude"; model := "opus" |}.
Definition openai_gpt4o : LLMConfig := {| provider := "openai"; model := "gpt-4o" |}.
Definition all_keys_set : string -> option string := fun _ => None.

End Routes.

(* ------------------------------------------------------------------ *)
(** ** Stream predicates of [listenToStream] *)

Module BridgeFacts.
Import Bridge.

(** The chunks that resolve the initial state and those that end the
    battle. *)
Definition opens (chunk : string) : bool :=
  includes chunk "|switch|" || includes chunk "|turn|".

Definition closes (chunk : string) : bool :=
  includes chunk "|win|" || includes chunk "|tie|".

(** The payloads of the [resolveInitialState] calls among the events. *)
Fixpoint initial_states (evs : list BridgeEvent) : list (list string) :=
  match evs with
  | [] => []
  | EvInitialState cs :: rest => cs :: initial_states rest
  | _ :: rest => initial_states rest
  end.

(** What observers receive for one chunk: its update, then a
    session-ended event when it carries a win or tie marker. *)
Definition chunk_observations (chunk : string) : list Session.ObsEvent :=
  Session.ObsUpdate chunk ::
    (if closes chunk then [Session.ObsEnd (parseWinner chunk)] else []).

End BridgeFacts.
(* ------------------------------------------------------------------ *)
(** ** Proofs *)

Module ParserFacts.
Import Parser SpecLegal.

Lemma indices_where_ext {A} (f g : nat -> A -> bool) (xs : list A) (i : nat) :
  (forall j x, i <= j -> f j x = g j x) ->
  indices_where f i xs = indices_where g i xs.
Proof.
  revert i; induction xs as [|x xs IH]; intros i Hfg; simpl; [reflexivity|].
  rewrite (Hfg i x) by lia.
  rewrite (IH (S i)) by (intros; apply Hfg; lia).
  reflexivity.
Qed.

Lemma indices_where_ge {A} (f : nat -> A -> bool) (xs : list A) (i n : nat) :
  In n (indices_where f i xs) -> i <= n.
Proof.
  revert i; induction xs as [|x xs IH]; intros i Hin; simpl in Hin; [contradiction|].
  destruct (f i x); [destruct Hin as [<-|Hin]; [lia|]|];
    apply IH in Hin; lia.
Qed.

Lemma indices_where_NoDup {A} (f : nat -> A -> bool) (xs : list A) (i : nat) :
  NoDup (indices_where f i xs).
Proof.
  revert i; induction xs as [|x xs IH]; intros i; simpl; [constructor|].
  destruct (f i x); [|apply IH].
  constructor; [|apply IH].
  intros Hin; apply indices_where_ge in Hin; lia.
Qed.

Lemma show_nat_inj (a b : nat) : show_nat a = show_nat b -> a = b.
Proof.
  unfold show_nat; intros H.
  apply (f_equal NilEmpty.uint_of_string) in H.
  rewrite !NilEmpty.usu in H; injection H as H.
  now apply Unsigned.to_uint_inj.
Qed.

Lemma move_cmd_inj (a b : nat) : move_cmd a = move_cmd b -> a = b.
Proof. unfold move_cmd; simpl; intros H; injection H as H; now apply show_nat_inj. Qed.

Lemma switch_cmd_inj (a b : nat) : switch_cmd a = switch_cmd b -> a = b.
Proof. unfold switch_cmd; simpl; intros H; injection H as H; now apply show_nat_inj. Qed.

Lemma move_switch_cmd_neq (a b : nat) : move_cmd a <> switch_cmd b.
Proof. unfold move_cmd, switch_cmd; simpl; intros H; inversion H. Qed.

Lemma NoDup_map_inj {A B} (f : A -> B) (l : list A) :
  (forall x y, f x = f y -> x = y) -> NoDup l -> NoDup (map f l).
Proof.
  intros Hinj Hnd; induction Hnd as [|x l Hx Hnd IH]; simpl; constructor; auto.
  intros Hin; apply in_map_iff in Hin as (y & Hy & Hin).
  apply Hinj in Hy; subst; contradiction.
Qed.

(** The switch targets of the code ([index > 1] and neither fainted nor
    active) are the spec's when the lead is the active Pokemon. *)
Lemma getValidSwitches_spec (req : Request) :
  lead_is_active req -> getValidSwitches req = spec_switch_targets req.
Proof.
  unfold lead_is_active, getValidSwitches, spec_switch_targets.
  destruct (side_pokemon req) as [[|p0 ps]|]; intros Hlead; try reflexivity.
  simpl; rewrite Hlead, andb_false_r; simpl.
  apply indices_where_ext; intros j x Hj.
  replace (1 <? j) with true by (symmetry; apply Nat.ltb_lt; lia).
  reflexivity.
Qed.

Lemma getValidMoves_spec (req : Request) : getValidMoves req = spec_move_slots req.
Proof. reflexivity. Qed.

Lemma spec_legal_set_cmds (req : Request) (x : string) :
  In x (spec_legal_set req) -> x <> "pass" /\ x <> "".
Proof.
  unfold spec_legal_set.
  assert (Hm : forall l, In x (map move_cmd l) -> x <> "pass" /\ x <> "")
    by (intros l Hin; apply in_map_iff in Hin as (n & <- & _);
        unfold move_cmd; simpl; split; discriminate).
  assert (Hs : forall l, In x (map switch_cmd l) -> x <> "pass" /\ x <> "")
    by (intros l Hin; apply in_map_iff in Hin as (n & <- & _);
        unfold switch_cmd; simpl; split; discriminate).
  destruct (forceSwitch req); [apply Hs|].
  destruct (teamPreview req).
  - intros [<-|[]]; split; discriminate.
  - intros Hin; apply in_app_or in Hin as [Hin|Hin]; [exact (Hm _ Hin)|].
    destruct (is_trapped req); [contradiction|exact (Hs _ Hin)].
Qed.

Lemma spec_switch_targets_NoDup (req : Request) : NoDup (spec_switch_targets req).
Proof.
  unfold spec_switch_targets; destruct (side_pokemon req);
    [apply indices_where_NoDup|constructor].
Qed.

Lemma spec_move_slots_NoDup (req : Request) : NoDup (spec_move_slots req).
Proof.
  unfold spec_move_slots; destruct (active_moves req);
    [apply indices_where_NoDup|constructor].
Qed.

Lemma spec_legal_set_NoDup (req : Request) : NoDup (spec_legal_set req).
Proof.
  unfold spec_legal_set.
  destruct (forceSwitch req);
    [apply NoDup_map_inj; [exact switch_cmd_inj|apply spec_switch_targets_NoDup]|].
  destruct (teamPreview req); [constructor; [intros []|constructor]|].
  apply NoDup_app.
  - apply NoDup_map_inj; [exact move_cmd_inj|apply spec_move_slots_NoDup].
  - destruct (is_trapped req); [constructor|].
    apply NoDup_map_inj; [exact switch_cmd_inj|apply spec_switch_targets_NoDup].
  - intros x Hin Hin'.
    apply in_map_iff in Hin as (a & <- & _).
    destruct (is_trapped req); [contradiction|].
    apply in_map_iff in Hin' as (b & Hb & _).
    exact (move_switch_cmd_neq a b (eq_sym Hb)).
Qed.

(** Under the engine's request shape, the generator is the pick of the
    [(r mod n)]-th element of the spec's legal set, or ["pass"] when it
    is empty. *)
Lemma getRandomValidChoice_pick (req : Request) (r : nat) :
  actionable req -> lead_is_active req ->
  getRandomValidChoice req r =
    match spec_legal_set req with
    | [] => "pass"
    | l => nth (r mod length l) l "pass"
    end.
Proof.
  intros [_ Hkind] Hlead.
  unfold getRandomValidChoice, spec_legal_set.
  rewrite (getValidSwitches_spec _ Hlead), getValidMoves_spec.
  destruct (forceSwitch req).
  - destruct (spec_switch_targets req) as [|t ts]; [reflexivity|].
    change (switch_cmd (nth (r mod length (t :: ts)) (t :: ts) 0) =
            nth (r mod length (map switch_cmd (t :: ts)))
                (map switch_cmd (t :: ts)) "pass").
    rewrite length_map, nth_indep with (d' := switch_cmd 0)
      by (rewrite length_map; apply Nat.mod_upper_bound; discriminate).
    now rewrite map_nth.
  - destruct (teamPreview req); [reflexivity|].
    destruct Hkind as [Hk|[Hk|Hk]]; try discriminate.
    unfold is_trapped.
    destruct (req_active req) as [a|]; [|contradiction].
    destruct (trapped a); cbn [map];
      destruct (map move_cmd (spec_move_slots req) ++ _)%list; reflexivity.
Qed.

(** ** C4: the random valid-choice generator *)

(** C4 (for every actionable request of the engine's shape): the
    fallback command is non-empty; when the legal set of the spec is
    non-empty it is the [(r mod n)]-th element of that duplicate-free set
    (so a uniform draw gives a uniform legal command, and the result is
    always legal: a non-disabled move, a non-fainted non-active switch,
    no switch when trapped, only switches on a forced switch, ["default"]
    on team preview); and it is ["pass"] exactly when the set is empty. *)
Theorem getRandomValidChoice_correct (req : Request) (r : nat) :
  actionable req -> lead_is_active req ->
  getRandomValidChoice req r <> "" /\
  NoDup (spec_legal_set req) /\
  (spec_legal_set req <> [] ->
     In (getRandomValidChoice req r) (spec_legal_set req) /\
     getRandomValidChoice req r =
       nth (r mod length (spec_legal_set req)) (spec_legal_set req) "pass") /\
  (getRandomValidChoice req r = "pass" <-> spec_legal_set req = []).
Proof.
  intros Hact Hlead.
  rewrite (getRandomValidChoice_pick req r Hact Hlead).
  pose proof (spec_legal_set_cmds req) as Hcmds.
  pose proof (spec_legal_set_NoDup req) as Hnd.
  destruct (spec_legal_set req) as [|x xs] eqn:E.
  - repeat split; try discriminate; try constructor; intros; try contradiction; reflexivity.
  - assert (Hin : In (nth (r mod length (x :: xs)) (x :: xs) "pass") (x :: xs))
      by (apply nth_In, Nat.mod_upper_bound; discriminate).
    destruct (Hcmds _ Hin) as [Hp He].
    repeat split; auto; intros H; [contradiction|discriminate].
Qed.

End ParserFacts.

Module ParserClaims.
Import Parser SpecLegal ParserFacts Samples.

(** Witness of C4: the theorem applied to a move request with move slot 2
    disabled and one fainted bench member. *)
Lemma getRandomValidChoice_correct_witness :
  actionable (move_request false) /\ lead_is_active (move_request false) /\
  getRandomValidChoice (move_request false) 4 <> "" /\
  NoDup (spec_legal_set (move_request false)) /\
  (spec_legal_set (move_request false) <> [] ->
     In (getRandomValidChoice (move_request false) 4) (spec_legal_set (move_request false)) /\
     getRandomValidChoice (move_request false) 4 =
       nth (4 mod length (spec_legal_set (move_request false)))
           (spec_legal_set (move_request false)) "pass") /\
  (getRandomValidChoice (move_request false) 4 = "pass" <->
     spec_legal_set (move_request false) = []).
Proof.
  assert (Ha : actionable (move_request false))
    by (split; [reflexivity|right; right; discriminate]).
  assert (Hl : lead_is_active (move_request false)) by reflexivity.
  split; [exact Ha|split; [exact Hl|]].
  exact (getRandomValidChoice_correct (move_request false) 4 Ha Hl).
Defined.

End ParserClaims.

Module ParserClaims2.
Import Parser SpecLegal ParserFacts Samples.

Lemma indices_where_spec {A} (f : nat -> A -> bool) (xs : list A) (i n : nat) :
  In n (indices_where f i xs) ->
  i <= n /\ exists x, nth_error xs (n - i) = Some x /\ f n x = true.
Proof.
  revert i; induction xs as [|x xs IH]; intros i Hin; simpl in Hin; [contradiction|].
  destruct (f i x) eqn:Hf.
  - destruct Hin as [<-|Hin].
    + split; [lia|]. exists x; rewrite Nat.sub_diag; auto.
    + apply IH in Hin as [Hle (y & Hy & Hfy)].
      split; [lia|]. exists y.
      replace (n - i) with (S (n - S i)) by lia; auto.
  - apply IH in Hin as [Hle (y & Hy & Hfy)].
    split; [lia|]. exists y.
    replace (n - i) with (S (n - S i)) by lia; auto.
Qed.

Lemma species_loop_none (text : string) (i : nat) (ps : list Pokemon) :
  (forall p, In p ps -> fainted p = false -> includes text (species_name p) = false) ->
  species_loop text i ps = None.
Proof.
  revert i; induction ps as [|p ps IH]; intros i H; cbn [species_loop]; [reflexivity|].
  destruct (fainted p) eqn:Hf.
  - rewrite andb_false_r; apply IH; intros q Hq; apply H; right; exact Hq.
  - rewrite (H p (or_introl eq_refl) Hf); apply IH; intros q Hq; apply H; right; exact Hq.
Qed.

Lemma move_name_loop_none (text : string) (i : nat) (ms : list MoveSlot) :
  (forall m, In m ms -> disabled m = false -> includes text (toLowerCase (move m)) = false) ->
  move_name_loop text i ms = None.
Proof.
  revert i; induction ms as [|m ms IH]; intros i H; cbn [move_name_loop]; [reflexivity|].
  destruct (disabled m) eqn:Hd.
  - rewrite andb_false_r; apply IH; intros q Hq; apply H; right; exact Hq.
  - rewrite (H m (or_introl eq_refl) Hd); apply IH; intros q Hq; apply H; right; exact Hq.
Qed.

Lemma move_cmd_2 (n : nat) : move_cmd n = "move 2" -> n = 2.
Proof. intros H; apply move_cmd_inj; exact H. Qed.

(** A disabled slot 2 is not among the move slots the code or the spec
    offers. *)
Lemma move2_not_offered (req : Request) (ms : list MoveSlot) (m2 : MoveSlot) :
  active_moves req = Some ms -> nth_error ms 1 = Some m2 -> disabled m2 = true ->
  ~ In "move 2" (map move_cmd (spec_move_slots req)).
Proof.
  intros Hms Hm2 Hd Hin.
  apply in_map_iff in Hin as (n & Hn & Hin); apply move_cmd_2 in Hn; subst n.
  unfold spec_move_slots in Hin; rewrite Hms in Hin.
  apply indices_where_spec in Hin as [_ (x & Hx & Hfx)].
  change (2 - 1) with 1 in Hx; rewrite Hm2 in Hx; injection Hx as <-.
  rewrite Hd in Hfx; discriminate.
Qed.

Lemma switch_cmds_not_move2 (l : list nat) : ~ In "move 2" (map switch_cmd l).
Proof.
  intros Hin; apply in_map_iff in Hin as (n & Hn & _).
  unfold switch_cmd in Hn; simpl in Hn; discriminate.
Qed.

Lemma move2_not_legal (req : Request) (ms : list MoveSlot) (m2 : MoveSlot) :
  active_moves req = Some ms -> nth_error ms 1 = Some m2 -> disabled m2 = true ->
  ~ In "move 2" (spec_legal_set req).
Proof.
  intros Hms Hm2 Hd; unfold spec_legal_set.
  destruct (forceSwitch req); [apply switch_cmds_not_move2|].
  destruct (teamPreview req); [intros [H|[]]; discriminate|].
  intros Hin; apply in_app_or in Hin as [Hin|Hin].
  - exact (move2_not_offered req ms m2 Hms Hm2 Hd Hin).
  - destruct (is_trapped req); [contradiction|exact (switch_cmds_not_move2 _ Hin)].
Qed.

Lemma getRandomValidChoice_not_move2 (req : Request) (ms : list MoveSlot)
    (m2 : MoveSlot) (r : nat) :
  active_moves req = Some ms -> nth_error ms 1 = Some m2 -> disabled m2 = true ->
  getRandomValidChoice req r <> "move 2".
Proof.
  intros Hms Hm2 Hd; unfold getRandomValidChoice.
  destruct (forceSwitch req).
  - destruct (getValidSwitches req); [discriminate|].
    unfold switch_cmd; simpl; discriminate.
  - destruct (teamPreview req); [discriminate|].
    destruct (req_active req) as [a|]; [|discriminate].
    set (l := (map move_cmd (getValidMoves req) ++
               map switch_cmd (if trapped a then [] else getValidSwitches req))%list).
    assert (Hl : ~ In "move 2" l).
    { unfold l; intros Hin; apply in_app_or in Hin as [Hin|Hin].
      - rewrite getValidMoves_spec in Hin; exact (move2_not_offered req ms m2 Hms Hm2 Hd Hin).
      - exact (switch_cmds_not_move2 _ Hin). }
    destruct l as [|x xs]; [discriminate|].
    destruct (nth_in_or_default (r mod length (x :: xs)) (x :: xs) "pass") as [Hin|Heq].
    + intros He; rewrite He in Hin; contradiction.
    + rewrite Heq; discriminate.
Qed.

(** ** C7: the text "move 2" when move slot 2 is disabled *)

(** C7: for every request whose move slot 2 exists and is disabled, and
    whose names are those of real species and moves (no non-fainted bench
    Pokemon's species name and no non-disabled move's name occurs inside
    the text "move 2"), [parse "move 2"] returns [null]; the
    fallback generator never returns "move 2", and on a request of the
    engine's shape it is the [(r mod n)]-th element of the legal set,
    from which "move 2" is absent. *)
Theorem parse_move2_disabled (req : Request) (ms : list MoveSlot) (m2 : MoveSlot)
    (r : nat) :
  active_moves req = Some ms -> nth_error ms 1 = Some m2 -> disabled m2 = true ->
  (forall ps p, side_pokemon req = Some ps -> In p (skipn 1 ps) -> fainted p = false ->
     includes "move 2" (species_name p) = false) ->
  (forall m, In m ms -> disabled m = false ->
     includes "move 2" (toLowerCase (move m)) = false) ->
  parse "move 2" req = None /\
  getRandomValidChoice req r <> "move 2" /\
  (actionable req -> lead_is_active req ->
     ~ In "move 2" (spec_legal_set req) /\
     getRandomValidChoice req r =
       match spec_legal_set req with
       | [] => "pass"
       | l => nth (r mod length l) l "pass"
       end).
Proof.
  intros Hms Hm2 Hd Hsp Hmn.
  split; [|split; [exact (getRandomValidChoice_not_move2 req ms m2 r Hms Hm2 Hd)|]].
  - unfold parse.
    change (trim (toLowerCase "move 2")) with "move 2".
    assert (Hlen : 1 < length ms)
      by (apply nth_error_Some; rewrite Hm2; discriminate).
    assert (Hmove : parse_move_number "move 2" req = None).
    { unfold parse_move_number.
      change (move_regex "move 2") with (Some "2").
      unfold isValidMove; rewrite Hms.
      replace (digits_value "2") with 2 by reflexivity.
      replace ((2 <? 1) || (length ms <? 2)) with false
        by (symmetry; apply orb_false_iff; split; apply Nat.ltb_ge; lia).
      change (2 - 1) with 1; rewrite Hm2, Hd; reflexivity. }
    assert (Hspec : parse_species "move 2" req = None).
    { unfold parse_species.
      destruct (side_pokemon req) as [ps|] eqn:Hps; [|reflexivity].
      apply species_loop_none; intros p Hp Hf; exact (Hsp ps p eq_refl Hp Hf). }
    assert (Hname : parse_move_name "move 2" req = None).
    { unfold parse_move_name; rewrite Hms; apply move_name_loop_none; exact Hmn. }
    rewrite Hmove, Hspec, Hname; cbn [first_of].
    change (parse_switch_number "move 2" req) with (@None string).
    unfold parse_default, parse_team_order.
    change (includes "move 2" "default") with false; rewrite andb_false_r.
    change (order_regex "move 2") with (@None string).
    cbn [first_of]; destruct (teamPreview req); reflexivity.
  - intros Hact Hlead; split.
    + exact (move2_not_legal req ms m2 Hms Hm2 Hd).
    + exact (getRandomValidChoice_pick req r Hact Hlead).
Qed.

(** Witness of C7: the sample move request, where slot 2 (Quick Attack)
    is disabled and the names are real ones. *)
Lemma parse_move2_disabled_witness :
  parse "move 2" (move_request false) = None /\
  getRandomValidChoice (move_request false) 7 <> "move 2".
Proof.
  assert (H := parse_move2_disabled (move_request false)
    [mv "Thunderbolt" false; mv "Quick Attack" true; mv "Iron Tail" false;
     mv "Volt Tackle" false] (mv "Quick Attack" true) 7 eq_refl eq_refl eq_refl).
  destruct H as [H1 [H2 _]].
  - intros ps p Hps Hp _; injection Hps as <-; simpl in Hp.
    destruct Hp as [<-|[<-|[<-|[]]]]; reflexivity.
  - intros m Hm _; simpl in Hm.
    destruct Hm as [<-|[<-|[<-|[<-|[]]]]]; reflexivity.
  - split; [exact H1|exact H2].
Defined.

End ParserClaims2.

Module ParserClaims3.
Import Parser SpecLegal ParserFacts Samples.

Lemma search_sound (at_pos : string -> option string) (pw : bool) (s d : string) :
  search at_pos pw s = Some d -> exists s', at_pos s' = Some d.
Proof.
  revert pw; induction s as [|c s IH]; intros pw; simpl.
  - destruct pw; [discriminate|]. intros H; exists ""; destruct (at_pos ""); exact H.
  - destruct (if pw then None else at_pos (String c s)) eqn:E.
    + intros H; injection H as <-. destruct pw; [discriminate|]. now exists (String c s).
    + apply IH.
Qed.

Lemma order_regex_sound (text d : string) :
  order_regex text = Some d ->
  String.length d = 6 /\ forallb is_1_to_6 (list_ascii_of_string d) = true.
Proof.
  unfold order_regex; intros H; apply search_sound in H as (s & Hs).
  destruct (_ && _ && _) eqn:E in Hs; [|discriminate].
  injection Hs as <-.
  apply andb_true_iff in E as [E _]; apply andb_true_iff in E as [E1 E2].
  split; [apply Nat.eqb_eq; exact E1|exact E2].
Qed.

Lemma isValidMove_no_active (n : nat) (req : Request) :
  req_active req = None -> isValidMove n req = false.
Proof. intros H; unfold isValidMove, active_moves; now rewrite H. Qed.

(** ** C8: team preview *)

(** Counterexample to C8: on a team-preview request, a text containing
    "default" that also names a bench Pokemon is read as a switch by the
    earlier species path, not as "default". *)
Lemma parse_team_preview_counterexample :
  teamPreview team_preview_request = true /\
  includes (trim (toLowerCase "default, Snorlax leads")) "default" = true /\
  parse "default, Snorlax leads" team_preview_request = Some "switch 4".
Proof. split; [reflexivity|split; reflexivity]. Qed.

(** C8 (amended): on a team-preview request (which carries no active
    slot), when the text has no accepted numeric switch reference and
    names no non-fainted bench Pokemon, [parse] returns "default" if the
    text contains "default", and otherwise "team " followed by the first
    word-bounded run of six digits 1-6, if any; any such run is accepted
    verbatim, with no permutation check. *)
Theorem parse_team_preview (req : Request) (response : string) :
  teamPreview req = true -> req_active req = None ->
  parse_switch_number (trim (toLowerCase response)) req = None ->
  parse_species (trim (toLowerCase response)) req = None ->
  (includes (trim (toLowerCase response)) "default" = true ->
     parse response req = Some "default") /\
  (includes (trim (toLowerCase response)) "default" = false ->
     parse response req =
       match order_regex (trim (toLowerCase response)) with
       | Some d => Some ("team " ++ d)%string
       | None => None
       end) /\
  (forall d, order_regex (trim (toLowerCase response)) = Some d ->
     String.length d = 6 /\ forallb is_1_to_6 (list_ascii_of_string d) = true).
Proof.
  intros Htp Hact Hsw Hsp.
  assert (Hmv : parse_move_number (trim (toLowerCase response)) req = None).
  { unfold parse_move_number.
    destruct (move_regex _); [|reflexivity].
    now rewrite isValidMove_no_active, andb_false_r. }
  assert (Hmn : parse_move_name (trim (toLowerCase response)) req = None)
    by (unfold parse_move_name, active_moves; now rewrite Hact).
  unfold parse; rewrite Hmv, Hsw, Hsp, Hmn; cbn [first_of].
  unfold parse_default, parse_team_order; rewrite Htp; cbn [andb].
  split; [|split].
  - intros H; now rewrite H.
  - intros H; rewrite H; cbn [first_of].
    now destruct (order_regex _).
  - apply order_regex_sound.
Qed.

(** Witness of C8: "111111" on the sample team-preview request gives
    "team 111111". *)
Lemma parse_team_preview_witness :
  parse "111111" team_preview_request = Some "team 111111".
Proof.
  destruct (parse_team_preview team_preview_request "111111"
              eq_refl eq_refl eq_refl eq_refl) as [_ [H _]].
  rewrite (H eq_refl); reflexivity.
Defined.

(** ** C10: the species path ignores the trap flag *)

(** C10: on a trapped move request, the numeric switch path rejects every
    switch, yet a text naming a non-fainted bench Pokemon is read as a
    switch to it by the species path. *)
Theorem parse_species_ignores_trapped :
  is_trapped (move_request true) = true /\
  (forall n, isValidSwitch n (move_request true) = false) /\
  parse "Go, Snorlax!" (move_request true) = Some "switch 4".
Proof.
  split; [reflexivity|split; [|reflexivity]].
  intros n; reflexivity.
Qed.

End ParserClaims3.

Module SessionClaims.
Import Bridge Session.
Local Open Scope list_scope.

Lemma skipn_length_app {A} (l r : list A) : skipn (length l) (l ++ r) = r.
Proof. induction l as [|x l IH]; simpl; auto. Qed.

(** Whatever the bridge's [ended] flag, a chunk containing ["|win|"]
    makes the bridge emit ['end'] once more: one more [saveBattle] call
    and one more session-ended event for observers. *)
Lemma deliver_win_emits_end (s : Session) (chunk : string) :
  includes chunk "|win|" = true ->
  let p := deliver (Running s) chunk in
  exit_code p = None /\
  saves (session_of p) = saves s ++ [parseWinner chunk] /\
  ended (bridge (session_of p)) = true /\
  observed (session_of p) = observed s ++ [ObsUpdate chunk; ObsEnd (parseWinner chunk)].
Proof.
  intros Hwin; unfold deliver, new_events, on_chunk; cbn [initialStateResolved events].
  rewrite Hwin; cbn [orb].
  destruct (initialStateResolved (bridge s));
    [|destruct (includes chunk "|switch|" || includes chunk "|turn|")];
    cbn [events ended]; rewrite <- ?app_assoc; cbn [app];
    rewrite skipn_length_app; cbn [fold_left react_step react set_bridge with_bridge
                                   session_of exit_code saves observed bridge ended];
    rewrite <- ?app_assoc; auto.
Qed.

(** ** C2: a re-delivered win chunk *)

(** C2 (code divergence): the same win chunk delivered twice to a fresh
    session ends it twice: two [saveBattle] calls and two session-ended
    events, because [listenToStream] emits ['end'] on every chunk with a
    win marker without consulting [_ended]. *)
Theorem deliver_win_twice :
  let c := "update
|win|openai/gpt-4o"%string in
  let p := run_stream fresh_session [c; c] Closed in
  exit_code p = None /\
  saves (session_of p) = [Some "openai/gpt-4o"; Some "openai/gpt-4o"] /\
  observed (session_of p) = [ObsUpdate c; ObsEnd (Some "openai/gpt-4o");
                             ObsUpdate c; ObsEnd (Some "openai/gpt-4o")].
Proof. repeat split; reflexivity. Qed.

(** ** C6: failure of the omniscient stream *)

(** C6 (code divergence): when the omniscient stream throws, the bridge
    re-emits the failure as ['error'] and nothing listens for it, so the
    emit throws and the Node process exits with code 1. The session is not
    forced to Ended: the bridge's ended flag, the winner, the observer
    events and the saves are those it had when the process died, and no
    session-ended event is delivered. On a fresh session whose stream
    yields a switch-in and a turn marker and then throws, the process
    exits with the battle still active, no winner, and only the two
    update events delivered. *)
Theorem stream_failure_exits (s : Session) :
  (let p := terminate (Running s) Failed in
   exit_code p = Some 1 /\
   ended (bridge (session_of p)) = ended (bridge s) /\
   swinner (session_of p) = swinner s /\ sturn (session_of p) = sturn s /\
   slog (session_of p) = slog s /\ observed (session_of p) = observed s /\
   saves (session_of p) = saves s) /\
  (let p := run_stream fresh_session
              ["|switch|p1a: Mew|Mew, L70|100/100"; "|turn|1"] Failed in
   exit_code p = Some 1 /\ status_active (session_of p) = true /\
   swinner (session_of p) = None /\ saves (session_of p) = [] /\
   observed (session_of p) =
     [ObsUpdate "|switch|p1a: Mew|Mew, L70|100/100"; ObsUpdate "|turn|1"]).
Proof.
  split; [|repeat split; reflexivity].
  unfold terminate, new_events, listenToStream; cbn [fold_left events ended].
  rewrite skipn_length_app; cbn [fold_left react_step react set_bridge with_bridge
                                 session_of exit_code bridge ended].
  repeat split; reflexivity.
Qed.

End SessionClaims.

Module TurnClaims.
Import Parser Turns Samples.

Lemma split_no_sep (sep : ascii) (s : string) :
  no_char sep s = true -> split sep s = [s].
Proof.
  unfold no_char; induction s as [|c s IH]; simpl; [reflexivity|].
  intros H; apply andb_true_iff in H as [Hc Hs].
  apply negb_true_iff in Hc; rewrite Hc, (IH Hs); reflexivity.
Qed.

(** A one-line chunk ["|turn|" ++ f] sets the turn to [parseInt f],
    whatever the turn was. *)
Lemma turn_line_sets (st : TurnState) (f : string) :
  no_char "|" f = true -> no_char (ascii_of_nat 10) f = true ->
  turn (turn_step st (TChunk ("|turn|" ++ f))) = parseInt f.
Proof.
  intros Hbar Hnl; cbn [turn_step turn].
  unfold logBattleEvents_turn.
  assert (Hc : split (ascii_of_nat 10) ("|turn|" ++ f) = ["|turn|" ++ f]%string).
  { apply split_no_sep; unfold no_char in *; simpl; exact Hnl. }
  rewrite Hc; cbn [fold_left]; unfold turn_of_line.
  replace (startsWith ("|turn|" ++ f) "|turn|") with true
    by (unfold startsWith; simpl; destruct f; reflexivity).
  simpl split; rewrite (split_no_sep _ _ Hbar); reflexivity.
Qed.

Lemma onDecision_p2_max (t : Z) (a b : nat) :
  turn (turn_step {| turn := JNum t; p1turn := a; p2turn := b |} (TDecision P2))
  = JNum (Z.max t (Z.of_nat b)).
Proof. reflexivity. Qed.

Lemma request_keeps_turn (st : TurnState) (sd : Side) (req : Request) :
  turn (turn_step st (TRequest sd req)) = turn st.
Proof. destruct sd; reflexivity. Qed.

(** ** C3: monotonicity of the turn *)

(** Counterexample to C3: after the turn-1 marker, p1 acts and then makes
    two forced switches (e.g. its replacements faint on entry), so its
    counter and the session turn reach 3; the engine's ["|turn|2"] line
    then lowers the session turn to 2. *)
Lemma turn_decreases_counterexample :
  let before := run_turns initial_turns
    [TChunk "|turn|1"; TRequest P1 (move_request false); TDecision P1;
     TRequest P1 force_request; TDecision P1;
     TRequest P1 force_request; TDecision P1] in
  turn before = JNum 3 /\
  turn (turn_step before (TChunk "|turn|2")) = JNum 2.
Proof. split; reflexivity. Qed.

(** C3 (amended): a ["|turn|N"] protocol line sets the session turn to
    the parsed value whatever it was before (so it can lower it); p2's
    decision handler never lowers it (it takes the maximum with p2's
    counter); requests do not change it. *)
Theorem turn_updates (st : TurnState) (f : string) (t : Z) (a b : nat) :
  no_char "|" f = true -> no_char (ascii_of_nat 10) f = true ->
  turn (turn_step st (TChunk ("|turn|" ++ f))) = parseInt f /\
  turn (turn_step {| turn := JNum t; p1turn := a; p2turn := b |} (TDecision P2))
    = JNum (Z.max t (Z.of_nat b)) /\ (t <= Z.max t (Z.of_nat b))%Z /\
  (forall sd req, turn (turn_step st (TRequest sd req)) = turn st).
Proof.
  intros Hbar Hnl.
  split; [exact (turn_line_sets st f Hbar Hnl)|].
  split; [apply onDecision_p2_max|].
  split; [lia|exact (request_keeps_turn st)].
Qed.

(** Witness of C3: from turn 3, the line ["|turn|2"] gives turn 2, and
    p2's handler with counter 2 keeps turn 3. *)
Lemma turn_updates_witness :
  turn (turn_step {| turn := JNum 3; p1turn := 3; p2turn := 2 |} (TChunk "|turn|2"))
    = JNum 2 /\
  turn (turn_step {| turn := JNum 3; p1turn := 3; p2turn := 2 |} (TDecision P2))
    = JNum 3.
Proof.
  destruct (turn_updates {| turn := JNum 3; p1turn := 3; p2turn := 2 |} "2" 3 3 2
              eq_refl eq_refl) as [H1 [H2 _]].
  split; [exact H1|exact H2].
Defined.

(** ** C9: the displayed turn and the two counters *)

(** Counterexample to C9: both sides act on turn 1; p1 makes a forced
    switch; on the next turn p1 has received its request (counter 3)
    when p2 decides (counter 2). Right after p2's handler the session
    turn is 2, below p1's counter and so not the maximum of the two. *)
Lemma turn_not_max_counterexample :
  let st := run_turns initial_turns
    [TRequest P1 (move_request false); TRequest P2 (move_request false);
     TDecision P1; TDecision P2;
     TRequest P1 force_request; TDecision P1;
     TRequest P1 (move_request false); TRequest P2 (move_request false);
     TDecision P2] in
  turn st = JNum 2 /\ p1turn st = 3 /\ p2turn st = 2.
Proof. repeat split; reflexivity. Qed.

(** C9 (amended): p2's decision handler sets the session turn to the
    maximum of the current turn and p2's own counter, without reading
    p1's counter (so right after it the turn is at least p2's counter
    but may be below p1's), and a ["|turn|N"] line overwrites the turn
    with the parsed N; the displayed turn is not in general the maximum
    of the two counters. *)
Theorem turn_from_own_counter (st : TurnState) (f : string) (t : Z) (a b : nat) :
  no_char "|" f = true -> no_char (ascii_of_nat 10) f = true ->
  turn (turn_step {| turn := JNum t; p1turn := a; p2turn := b |} (TDecision P2))
    = JNum (Z.max t (Z.of_nat b)) /\
  turn (turn_step st (TChunk ("|turn|" ++ f))) = parseInt f.
Proof.
  intros Hbar Hnl; split;
    [apply onDecision_p2_max|exact (turn_line_sets st f Hbar Hnl)].
Qed.

(** Witness of C9: with p1's counter at 3, p2's handler with counter 2
    from turn 2 leaves turn 2; the line ["|turn|4"] sets turn 4. *)
Lemma turn_from_own_counter_witness :
  turn (turn_step {| turn := JNum 2; p1turn := 3; p2turn := 2 |} (TDecision P2))
    = JNum 2 /\
  turn (turn_step {| turn := JNum 2; p1turn := 3; p2turn := 2 |} (TChunk "|turn|4"))
    = JNum 4.
Proof.
  exact (turn_from_own_counter {| turn := JNum 2; p1turn := 3; p2turn := 2 |} "4" 2 3 2
           eq_refl eq_refl).
Defined.

End TurnClaims.

Module PlayerClaims.
Import Parser SpecLegal ParserFacts Player Samples.

(** The legality of a fallback command on a request of the engine's
    shape: a member of the legal set, or ["pass"] when it is empty. *)
Lemma fallback_legal (req : Request) (r : nat) :
  actionable req -> lead_is_active req ->
  In (getRandomValidChoice req r) (spec_legal_set req) \/
  (spec_legal_set req = [] /\ getRandomValidChoice req r = "pass").
Proof.
  intros Ha Hl; rewrite (getRandomValidChoice_pick req r Ha Hl).
  destruct (spec_legal_set req) as [|x xs]; [right; auto|left].
  apply nth_In, Nat.mod_upper_bound; discriminate.
Qed.

(** ** C5: the decision deadline *)

(** C5: when the decision service does not settle within [llmTimeout]
    (30000 ms) — it never settles, or resolves or rejects later — the
    race yields the timer's [null], the request is resolved by the random
    fallback with [usedFallback = true], no reasoning, and a latency of
    the 30000 ms deadline plus the synchronous work after it; that
    fallback command is submitted, and on a request of the engine's shape
    it is legal. *)
Theorem receiveRequest_timeout (req : Request) (d : DecideOutcome) (overhead r : nat) :
  wait req = false ->
  (d = Never \/ (exists t v, d = Resolves t v /\ llmTimeout < t) \/
   (exists t, d = Rejects t /\ llmTimeout < t)) ->
  fst (race d llmTimeout) = RaceValue None /\
  receiveRequest req d llmTimeout overhead r =
    Some {| choice := getRandomValidChoice req r; reasoning := None;
            decisionTime := llmTimeout + overhead; usedFallback := true |} /\
  (actionable req -> lead_is_active req ->
     In (getRandomValidChoice req r) (spec_legal_set req) \/
     (spec_legal_set req = [] /\ getRandomValidChoice req r = "pass")).
Proof.
  intros Hw Hd.
  assert (Hrace : race d llmTimeout = (RaceValue None, llmTimeout)).
  { destruct Hd as [->|[(t & v & -> & Ht)|(t & -> & Ht)]]; [reflexivity| |];
      unfold race; replace (t <=? llmTimeout) with false
        by (symmetry; apply Nat.leb_gt; exact Ht); reflexivity. }
  split; [rewrite Hrace; reflexivity|split].
  - unfold receiveRequest, decide_request; rewrite Hw, Hrace; reflexivity.
  - apply fallback_legal.
Qed.

(** Witness of C5: a service that never answers, on the sample move
    request, with 2 ms of work after the deadline. *)
Lemma receiveRequest_timeout_witness :
  receiveRequest (move_request false) Never llmTimeout 2 0 =
    Some {| choice := "move 1"; reasoning := None;
            decisionTime := llmTimeout + 2; usedFallback := true |}.
Proof.
  destruct (receiveRequest_timeout (move_request false) Never 2 0 eq_refl
              (or_introl eq_refl)) as [_ [H _]].
  rewrite H; reflexivity.
Defined.

End PlayerClaims.

Module ManagerClaims.
Import Manager.
Local Open Scope list_scope.

(** All sessions but the newest are ended, and the newest is the one in
    the [activeBattle] slot. *)
Definition gate_inv (m : Manager) : Prop :=
  (sessions m = [] /\ activeBattle m = None) \/
  (exists n b, sessions m = repeat true n ++ [b] /\ activeBattle m = Some n).

Lemma nth_repeat_last (n : nat) (b : bool) (d : bool) :
  nth n (repeat true n ++ [b]) d = b.
Proof. induction n; simpl; auto. Qed.

Lemma length_repeat_last (n : nat) (b : bool) :
  length (repeat true n ++ [b]) = S n.
Proof. rewrite length_app, repeat_length; simpl; lia. Qed.

Lemma set_ended_repeat_last (i n : nat) (b : bool) :
  exists b', set_ended i (repeat true n ++ [b]) = repeat true n ++ [b'].
Proof.
  revert i; induction n as [|n IH]; intros i; simpl.
  - destruct i as [|[|i]]; [exists true|exists b|exists b]; reflexivity.
  - destruct i as [|i]; [exists b; reflexivity|].
    destruct (IH i) as [b' Hb']; exists b'; simpl; rewrite Hb'; reflexivity.
Qed.

Lemma repeat_snoc (n : nat) (b : bool) :
  repeat b n ++ [b] = repeat b (S n).
Proof. replace (S n) with (n + 1) by lia; rewrite repeat_app; reflexivity. Qed.

Lemma gate_inv_step (m m' : Manager) : gate_inv m -> step m m' -> gate_inv m'.
Proof.
  intros Hinv Hstep; destruct Hstep as [m r m' Hs|m i].
  - unfold startBattle, isEnded in Hs.
    destruct Hinv as [[Hse Ha]|(n & b & Hse & Ha)]; rewrite Ha in Hs.
    + injection Hs as <- <-; right; exists 0, false; simpl; rewrite Hse; auto.
    + rewrite Hse, nth_repeat_last in Hs.
      destruct b; simpl in Hs.
      * injection Hs as <- <-; right; exists (S n), false; cbn [sessions activeBattle].
        rewrite length_repeat_last, repeat_snoc; split; reflexivity.
      * injection Hs as <- <-; right; exists n, false; split; assumption.
  - unfold endSession; destruct Hinv as [[Hse Ha]|(n & b & Hse & Ha)].
    + left; cbn [sessions activeBattle]; rewrite Hse, Ha; split; [destruct i|]; reflexivity.
    + right; destruct (set_ended_repeat_last i n b) as [b' Hb'].
      exists n, b'; cbn [sessions activeBattle]; rewrite Hse, Hb', Ha; split; reflexivity.
Qed.

Lemma reachable_inv (m : Manager) : reachable m -> gate_inv m.
Proof.
  induction 1 as [|m m' _ IH Hs]; [left; auto|exact (gate_inv_step m m' IH Hs)].
Qed.

Lemma count_repeat_last (n : nat) (b : bool) :
  count_occ Bool.bool_dec (repeat true n ++ [b]) false = if b then 0 else 1.
Proof. induction n; simpl; [destruct b; reflexivity|exact IHn]. Qed.

Lemma nth_error_repeat_last (n i : nat) (b : bool) :
  nth_error (repeat true n ++ [b]) i = Some false -> i = n /\ b = false.
Proof.
  revert i; induction n as [|n IH]; intros i H; simpl in H.
  - destruct i as [|i]; simpl in H.
    + injection H as ->; auto.
    + destruct i; discriminate.
  - destruct i as [|i]; [discriminate|].
    apply IH in H as [-> ->]; auto.
Qed.

(** ** C1: one active session at a time *)

(** C1: in every state the event loop can reach, at most one session has
    status Active; if some session is Active, [startBattle] fails with
    "Battle already in progress" and changes nothing; a successful start
    installs a new session as the Active one. The check and the
    installation are one step of [step], since lines 452-459 of
    [startBattle] contain no [await]. *)
Theorem startBattle_single_active (m : Manager) :
  reachable m ->
  active_count m <= 1 /\
  (forall i, nth_error (sessions m) i = Some false ->
     startBattle m = (AlreadyInProgress, m)) /\
  (forall id m', startBattle m = (Started id, m') ->
     activeBattle m' = Some id /\ isEnded m' id = false /\ active_count m' = 1).
Proof.
  intros Hr; pose proof (reachable_inv m Hr) as Hinv.
  destruct Hinv as [[Hse Ha]|(n & b & Hse & Ha)].
  - unfold active_count, startBattle; rewrite Hse, Ha; simpl.
    split; [lia|split].
    + intros i Hi; destruct i; discriminate.
    + intros id m' Hs; injection Hs as <- <-; auto.
  - unfold active_count; rewrite Hse, count_repeat_last.
    split; [destruct b; lia|split].
    + intros i Hi; apply nth_error_repeat_last in Hi as [-> ->].
      unfold startBattle, isEnded; rewrite Ha, Hse, nth_repeat_last; reflexivity.
    + unfold startBattle, isEnded; rewrite Ha, Hse, nth_repeat_last.
      destruct b; simpl; [|discriminate].
      intros id m' Hs; injection Hs as <- <-; cbn [sessions activeBattle].
      rewrite length_repeat_last, repeat_snoc.
      rewrite nth_repeat_last, count_repeat_last; auto.
Qed.

(** Witness of C1: after one successful start, a second start is
    refused and leaves the state unchanged. *)
Lemma startBattle_single_active_witness :
  startBattle (snd (startBattle initial_manager)) =
    (AlreadyInProgress, snd (startBattle initial_manager)).
Proof.
  assert (Hr : reachable (snd (startBattle initial_manager)))
    by (apply (ReachStep initial_manager); [constructor|
          apply (StepStart _ (fst (startBattle initial_manager))); reflexivity]).
  destruct (startBattle_single_active _ Hr) as [_ [H _]].
  exact (H 0 eq_refl).
Defined.

End ManagerClaims.

(* ------------------------------------------------------------------ *)
(** ** Further properties of [ResponseParser] *)

Module ParserExtra.
Import Parser ParserFacts.

Lemma indices_where_iff {A} (f : nat -> A -> bool) (xs : list A) (i n : nat) :
  In n (indices_where f i xs) <->
  i <= n /\ exists x, nth_error xs (n - i) = Some x /\ f n x = true.
Proof.
  revert i; induction xs as [|x xs IH]; intros i; simpl.
  - split; [contradiction|]. intros (_ & y & Hy & _); destruct (n - i); discriminate.
  - destruct (f i x) eqn:Hf; simpl; rewrite IH; split.
    + intros [<-|(Hle & y & Hy & Hfy)]; [split; [lia|exists x; rewrite Nat.sub_diag; auto]|].
      split; [lia|]. exists y; replace (n - i) with (S (n - S i)) by lia; auto.
    + intros (Hle & y & Hy & Hfy).
      destruct (Nat.eq_dec n i) as [->|Hne]; [left; reflexivity|right].
      split; [lia|]. exists y; replace (n - i) with (S (n - S i)) in Hy by lia; auto.
    + intros (Hle & y & Hy & Hfy).
      split; [lia|]. exists y; replace (n - i) with (S (n - S i)) by lia; auto.
    + intros (Hle & y & Hy & Hfy).
      destruct (Nat.eq_dec n i) as [->|Hne].
      * rewrite Nat.sub_diag in Hy; injection Hy as <-; congruence.
      * split; [lia|]. exists y; replace (n - i) with (S (n - S i)) in Hy by lia; auto.
Qed.

Lemma nth_error_lt {A} (xs : list A) (k : nat) (x : A) :
  nth_error xs k = Some x -> k < length xs.
Proof. intros H; apply nth_error_Some; rewrite H; discriminate. Qed.

(** ** Numeric references and the fallback lists *)

(** [isValidMove] accepts a move number exactly when [getValidMoves]
    lists it: the parser's explicit "move N" check and the fallback
    generator agree on which move slots are usable. *)
Theorem isValidMove_getValidMoves (req : Request) (k : nat) :
  isValidMove k req = true <-> In k (getValidMoves req).
Proof.
  unfold isValidMove, getValidMoves.
  destruct (active_moves req) as [ms|]; [|split; [discriminate|contradiction]].
  rewrite indices_where_iff.
  destruct ((k <? 1) || (length ms <? k)) eqn:Hr.
  - split; [discriminate|]. intros (Hk & m & Hm & _).
    apply nth_error_lt in Hm.
    apply orb_true_iff in Hr as [Hr|Hr]; apply Nat.ltb_lt in Hr; lia.
  - apply orb_false_iff in Hr as [H1 H2]; apply Nat.ltb_ge in H1, H2.
    split.
    + destruct (nth_error ms (k - 1)) as [m|] eqn:Hm; [|discriminate].
      intros Hd; split; [lia|]. exists m; auto.
    + intros (_ & m & Hm & Hd); rewrite Hm; exact Hd.
Qed.

(** [isValidSwitch] accepts a roster position exactly when the active
    Pokemon is not trapped and [getValidSwitches] lists the position:
    the explicit "switch N" check is the fallback's switch list, cut to
    nothing under a trap. *)
Theorem isValidSwitch_getValidSwitches (req : Request) (k : nat) :
  isValidSwitch k req = true <-> is_trapped req = false /\ In k (getValidSwitches req).
Proof.
  unfold isValidSwitch, getValidSwitches.
  destruct (side_pokemon req) as [ps|]; [|split; [discriminate|intros [_ []]]].
  destruct (is_trapped req); [split; [discriminate|intros [H _]; discriminate]|].
  rewrite indices_where_iff.
  destruct ((k <? 2) || (length ps <? k)) eqn:Hr.
  - split; [discriminate|]. intros (_ & Hk & p & Hp & Hf).
    apply nth_error_lt in Hp.
    apply andb_true_iff in Hf as [Hf _]; apply andb_true_iff in Hf as [Hf _].
    apply Nat.ltb_lt in Hf.
    apply orb_true_iff in Hr as [Hr|Hr]; apply Nat.ltb_lt in Hr; lia.
  - apply orb_false_iff in Hr as [H1 H2]; apply Nat.ltb_ge in H1, H2.
    split.
    + destruct (nth_error ps (k - 1)) as [p|] eqn:Hp; [|discriminate].
      intros Hv; split; [reflexivity|split; [lia|]]. exists p; split; [reflexivity|].
      replace (1 <? k) with true by (symmetry; apply Nat.ltb_lt; lia).
      exact Hv.
    + intros (_ & _ & p & Hp & Hf); rewrite Hp.
      apply andb_true_iff in Hf as [Hf Ha]; apply andb_true_iff in Hf as [_ Hf].
      now rewrite Hf, Ha.
Qed.

(** ** What [parse] can return *)

Lemma parse_move_number_sound (text : string) (req : Request) (c : string) :
  parse_move_number text req = Some c ->
  exists k, c = move_cmd k /\ In k (getValidMoves req).
Proof.
  unfold parse_move_number.
  destruct (move_regex text) as [ds|]; [|discriminate].
  destruct ((1 <=? digits_value ds) && (digits_value ds <=? 4)
            && isValidMove (digits_value ds) req) eqn:E; [|discriminate].
  intros H; injection H as <-.
  apply andb_true_iff in E as [_ E].
  exists (digits_value ds); split; [reflexivity|].
  now apply isValidMove_getValidMoves.
Qed.

Lemma parse_switch_number_sound (text : string) (req : Request) (c : string) :
  parse_switch_number text req = Some c ->
  exists k, c = switch_cmd k /\ 2 <= k /\ isValidSwitch k req = true.
Proof.
  unfold parse_switch_number.
  destruct (switch_regex text) as [ds|]; [|discriminate].
  destruct ((2 <=? digits_value ds) && (digits_value ds <=? 6)
            && isValidSwitch (digits_value ds) req) eqn:E; [|discriminate].
  intros H; injection H as <-.
  apply andb_true_iff in E as [E Hv]; apply andb_true_iff in E as [E _].
  apply Nat.leb_le in E.
  exists (digits_value ds); split; [reflexivity|split; assumption].
Qed.

Lemma species_loop_sound (text : string) (i : nat) (ps : list Pokemon) (c : string) :
  species_loop text i ps = Some c ->
  exists k p, c = switch_cmd k /\ S i <= k /\ nth_error ps (k - S i) = Some p /\
              fainted p = false.
Proof.
  revert i; induction ps as [|p ps IH]; intros i; cbn [species_loop]; [discriminate|].
  destruct (includes text (species_name p) && negb (fainted p)) eqn:E.
  - intros H; injection H as <-.
    apply andb_true_iff in E as [_ E]; apply negb_true_iff in E.
    exists (i + 1), p; split; [reflexivity|split; [lia|]].
    replace (i + 1 - S i) with 0 by lia; auto.
  - intros H; apply IH in H as (k & q & -> & Hk & Hq & Hf).
    exists k, q; split; [reflexivity|split; [lia|]].
    replace (k - S i) with (S (k - S (S i))) by lia; auto.
Qed.

Lemma move_name_loop_sound (text : string) (i : nat) (ms : list MoveSlot) (c : string) :
  move_name_loop text i ms = Some c ->
  exists k m, c = move_cmd k /\ S i <= k /\ nth_error ms (k - S i) = Some m /\
              disabled m = false.
Proof.
  revert i; induction ms as [|m ms IH]; intros i; cbn [move_name_loop]; [discriminate|].
  destruct (includes text (toLowerCase (move m)) && negb (disabled m)) eqn:E.
  - intros H; injection H as <-.
    apply andb_true_iff in E as [_ E]; apply negb_true_iff in E.
    exists (i + 1), m; split; [reflexivity|split; [lia|]].
    replace (i + 1 - S i) with 0 by lia; auto.
  - intros H; apply IH in H as (k & q & -> & Hk & Hq & Hd).
    exists k, q; split; [reflexivity|split; [lia|]].
    replace (k - S i) with (S (k - S (S i))) by lia; auto.
Qed.

(** Every command [parse] returns is of one of four kinds: "move k" for
    a move slot [getValidMoves] lists; "switch k" for a roster position
    [k >= 2] holding a Pokemon that has not fainted; "default" on team
    preview; "team" and six digits 1-6 on team preview. In particular it
    never returns "switch 1", a disabled or missing move, or a fainted
    switch target. *)
Theorem parse_sound (response : string) (req : Request) (c : string) :
  parse response req = Some c ->
  (exists k, c = move_cmd k /\ In k (getValidMoves req)) \/
  (exists k ps p, c = switch_cmd k /\ 2 <= k /\ side_pokemon req = Some ps /\
                  nth_error ps (k - 1) = Some p /\ fainted p = false) \/
  (c = "default" /\ teamPreview req = true) \/
  (exists d, c = ("team " ++ d)%string /\ teamPreview req = true /\
             String.length d = 6 /\ forallb is_1_to_6 (list_ascii_of_string d) = true).
Proof.
  unfold parse, first_of.
  set (text := trim (toLowerCase response)).
  destruct (parse_move_number text req) as [c1|] eqn:E1.
  { intros H; injection H as <-; left; now apply parse_move_number_sound in E1. }
  destruct (parse_switch_number text req) as [c2|] eqn:E2.
  { intros H; injection H as <-; right; left.
    apply parse_switch_number_sound in E2 as (k & -> & Hk & Hv).
    unfold isValidSwitch in Hv.
    destruct (side_pokemon req) as [ps|]; [|discriminate].
    destruct (is_trapped req); [discriminate|].
    destruct (_ || _); [discriminate|].
    destruct (nth_error ps (k - 1)) as [p|] eqn:Hp; [|discriminate].
    apply andb_true_iff in Hv as [Hf _]; apply negb_true_iff in Hf.
    exists k, ps, p; auto. }
  destruct (parse_species text req) as [c3|] eqn:E3.
  { intros H; injection H as <-; right; left.
    unfold parse_species in E3.
    destruct (side_pokemon req) as [ps|]; [|discriminate].
    apply species_loop_sound in E3 as (k & p & -> & Hk & Hp & Hf).
    exists k, ps, p; split; [reflexivity|split; [lia|split; [reflexivity|]]].
    rewrite nth_error_skipn in Hp.
    replace (1 + (k - 2)) with (k - 1) in Hp by lia; auto. }
  destruct (parse_move_name text req) as [c4|] eqn:E4.
  { intros H; injection H as <-; left.
    unfold parse_move_name in E4; unfold getValidMoves.
    destruct (active_moves req) as [ms|]; [|discriminate].
    apply move_name_loop_sound in E4 as (k & m & -> & Hk & Hm & Hd).
    exists k; split; [reflexivity|].
    apply indices_where_iff; split; [lia|]. exists m; rewrite Hd; auto. }
  destruct (parse_default text req) as [c5|] eqn:E5.
  { intros H; injection H as <-; right; right; left.
    unfold parse_default in E5.
    destruct (teamPreview req && includes text "default") eqn:E; [|discriminate].
    injection E5 as <-; apply andb_true_iff in E as [E _]; auto. }
  unfold parse_team_order.
  destruct (teamPreview req) eqn:Ht; [|discriminate].
  destruct (order_regex text) as [d|] eqn:E6; [|discriminate].
  intros H; injection H as <-; right; right; right.
  apply ParserClaims3.order_regex_sound in E6 as [Hl Hd].
  exists d; auto.
Qed.

(** Witness of [parse_sound]: "go, snorlax!" on the sample move request. *)
Lemma parse_sound_witness :
  exists k ps p, "switch 4" = switch_cmd k /\ 2 <= k /\
    side_pokemon (Samples.move_request false) = Some ps /\
    nth_error ps (k - 1) = Some p /\ fainted p = false.
Proof.
  destruct (parse_sound "Go, Snorlax!" (Samples.move_request false) "switch 4"
              eq_refl) as [(k & Hc & _)|[H|[(Hc & _)|(d & Hc & _)]]].
  - exfalso; unfold move_cmd in Hc; cbn in Hc; discriminate.
  - exact H.
  - discriminate.
  - discriminate.
Defined.

End ParserExtra.

(* ------------------------------------------------------------------ *)
(** ** String facts: [split], [join], [trim] *)

Module StringFacts.
Import Claude.
Local Open Scope list_scope.

Lemma list_ascii_app (a b : string) :
  list_ascii_of_string (a ++ b) = list_ascii_of_string a ++ list_ascii_of_string b.
Proof. induction a as [|c a IH]; simpl; [reflexivity|now rewrite IH]. Qed.

Lemma string_app_assoc (a b c : string) : ((a ++ b) ++ c)%string = (a ++ (b ++ c))%string.
Proof. induction a as [|x a IH]; simpl; [reflexivity|now rewrite IH]. Qed.

Lemma rev_string_snoc (s : string) (l : ascii) :
  rev_string (s ++ String l EmptyString) = String l (rev_string s).
Proof.
  unfold rev_string; rewrite list_ascii_app, rev_app_distr; reflexivity.
Qed.

Lemma rev_string_involutive (s : string) : rev_string (rev_string s) = s.
Proof.
  unfold rev_string.
  now rewrite list_ascii_of_string_of_list_ascii, rev_involutive,
    string_of_list_ascii_of_string.
Qed.

Lemma trimStart_nonspace (c : ascii) (s : string) :
  is_space c = false -> trimStart (String c s) = String c s.
Proof. intros H; simpl; now rewrite H. Qed.

Lemma trimStart_snoc (x : string) (l : ascii) :
  is_space l = false -> exists y, trimStart (x ++ String l EmptyString) = (y ++ String l EmptyString)%string.
Proof.
  intros Hl; induction x as [|a x IH]; simpl.
  - rewrite Hl; now exists EmptyString.
  - destruct (is_space a); [exact IH|]. now exists (String a x).
Qed.

(** A text whose last character is not white space loses only its
    leading white space to [trim]. *)
Lemma trim_snoc (x : string) (l : ascii) :
  is_space l = false -> trim (x ++ String l EmptyString) = trimStart (x ++ String l EmptyString).
Proof.
  intros Hl; unfold trim.
  destruct (trimStart_snoc x l Hl) as [y ->].
  rewrite rev_string_snoc, trimStart_nonspace by exact Hl.
  rewrite <- rev_string_snoc; apply rev_string_involutive.
Qed.

Lemma no_char_app (c : ascii) (a b : string) :
  no_char c (a ++ b) = no_char c a && no_char c b.
Proof. unfold no_char; now rewrite list_ascii_app, forallb_app. Qed.

Lemma no_char_rev (c : ascii) (s : string) : no_char c (rev_string s) = no_char c s.
Proof.
  unfold no_char, rev_string; rewrite list_ascii_of_string_of_list_ascii.
  induction (list_ascii_of_string s) as [|x l IH]; simpl; [reflexivity|].
  rewrite forallb_app, IH; simpl; now rewrite andb_true_r, andb_comm.
Qed.

Lemma no_char_trimStart (c : ascii) (s : string) :
  no_char c s = true -> no_char c (trimStart s) = true.
Proof.
  induction s as [|a s IH]; simpl; [auto|].
  unfold no_char; simpl; intros H; apply andb_true_iff in H as [Ha Hs].
  destruct (is_space a); [now apply IH|]. simpl; now rewrite Ha, Hs.
Qed.

Lemma no_char_trim (c : ascii) (s : string) :
  no_char c s = true -> no_char c (trim s) = true.
Proof.
  intros H; unfold trim.
  rewrite no_char_rev; apply no_char_trimStart; rewrite no_char_rev.
  now apply no_char_trimStart.
Qed.

Lemma split_not_nil (sep : ascii) (s : string) : split sep s <> [].
Proof.
  induction s as [|c s IH]; simpl; [discriminate|].
  destruct (Ascii.eqb c sep); [discriminate|].
  destruct (split sep s); [contradiction|discriminate].
Qed.

Lemma split_pieces (sep : ascii) (s : string) :
  Forall (fun w => no_char sep w = true) (split sep s).
Proof.
  induction s as [|c s IH]; simpl; [repeat constructor|].
  destruct (Ascii.eqb c sep) eqn:E; [constructor; [reflexivity|exact IH]|].
  destruct (split sep s) as [|w ws]; [constructor; [|constructor]|].
  - unfold no_char; simpl; now rewrite E.
  - inversion IH as [|? ? Hw Hws]; subst.
    constructor; [|exact Hws].
    unfold no_char in *; simpl; now rewrite E, Hw.
Qed.

(** [lines.join(sep)] undoes [text.split(sep)]. *)
Lemma join_split (sep : ascii) (s : string) :
  join (String sep EmptyString) (split sep s) = s.
Proof.
  induction s as [|c s IH]; simpl; [reflexivity|].
  destruct (Ascii.eqb c sep) eqn:E.
  - apply Ascii.eqb_eq in E; subst c.
    destruct (split sep s) as [|w ws] eqn:Hs; [now apply split_not_nil in Hs|].
    simpl; rewrite <- IH; reflexivity.
  - destruct (split sep s) as [|w ws] eqn:Hs; [now apply split_not_nil in Hs|].
    destruct ws as [|w' ws]; simpl in *; [now rewrite IH|].
    now rewrite IH.
Qed.

(** A first line without the separator is split off as it is. *)
Lemma split_first (sep : ascii) (c r : string) :
  no_char sep c = true -> split sep (c ++ String sep r) = c :: split sep r.
Proof.
  induction c as [|a c IH]; intros H; simpl.
  - now rewrite Ascii.eqb_refl.
  - unfold no_char in H; simpl in H; apply andb_true_iff in H as [Ha Hc].
    apply negb_true_iff in Ha; rewrite Ha, IH by exact Hc; reflexivity.
Qed.

End StringFacts.

(* ------------------------------------------------------------------ *)
(** ** [ClaudeAdapter.decide]: command and reasoning *)

Module ClaudeExtra.
Import Player Claude StringFacts.
Local Open Scope list_scope.

(** The command [decide] hands to [ResponseParser] is always a single
    line; a reply without a line break gives its trimmed text as the
    command and no reasoning. *)
Theorem decide_response_one_line (content : list ContentBlock) :
  no_char nl (rtext (decide_response content)) = true /\
  (no_char nl (join nl_string (text_blocks content)) = true ->
   decide_response content =
     {| rtext := trim (join nl_string (text_blocks content)); rreasoning := None |}).
Proof.
  unfold decide_response; cbn [rtext]; split.
  - pose proof (split_pieces nl (trim (join nl_string (text_blocks content)))) as Hp.
    destruct (split nl (trim (join nl_string (text_blocks content)))) as [|w ws] eqn:E;
      [now apply split_not_nil in E|].
    inversion Hp; assumption.
  - intros H; rewrite (TurnClaims.split_no_sep nl _ (no_char_trim nl _ H)).
    reflexivity.
Qed.

(** Witness: a two-block reply whose text has no line break. *)
Lemma decide_response_one_line_witness :
  decide_response [TextBlock " move 2 "; OtherBlock] =
    {| rtext := "move 2"; rreasoning := None |}.
Proof.
  destruct (decide_response_one_line [TextBlock " move 2 "; OtherBlock]) as [_ H].
  rewrite (H eq_refl); reflexivity.
Defined.

(** A reply "command, line break, reasoning" (the command line starting
    and the reply ending with a character that is not white space) is
    split into that command and the trimmed reasoning. *)
Theorem decide_response_command_reasoning (c0 l : ascii) (c r : string) :
  is_space c0 = false -> is_space l = false -> no_char nl (String c0 c) = true ->
  decide_response [TextBlock (String c0 c ++ String nl (r ++ String l EmptyString))] =
    {| rtext := String c0 c; rreasoning := Some (trim (r ++ String l EmptyString)) |}.
Proof.
  intros Hc0 Hl Hc.
  unfold decide_response; cbn [text_blocks join].
  set (body := (String c0 c ++ String nl (r ++ String l EmptyString))%string).
  assert (Htrim : trim body = body).
  { unfold body.
    replace (String c0 c ++ String nl (r ++ String l EmptyString))%string
      with ((String c0 c ++ String nl r) ++ String l EmptyString)%string
      by (rewrite string_app_assoc; reflexivity).
    rewrite trim_snoc by exact Hl.
    apply trimStart_nonspace; exact Hc0. }
  rewrite Htrim; unfold body; rewrite split_first by exact Hc.
  cbn [hd tl]; unfold nl_string; rewrite join_split.
  destruct (trim (r ++ String l EmptyString)) as [|x y] eqn:Et; [|reflexivity].
  rewrite trim_snoc in Et by exact Hl.
  destruct (trimStart_snoc r l Hl) as [z Hz]; rewrite Hz in Et.
  destruct z; discriminate.
Qed.

(** Witness: "move 1", a line break, and " Thunderbolt is super effective.". *)
Lemma decide_response_command_reasoning_witness :
  decide_response [TextBlock ("move 1" ++ String nl " Thunderbolt is super effective.")] =
    {| rtext := "move 1"; rreasoning := Some "Thunderbolt is super effective." |}.
Proof.
  exact (decide_response_command_reasoning "m" "." "ove 1" " Thunderbolt is super effective"
           eq_refl eq_refl eq_refl).
Defined.

End ClaudeExtra.

(* ------------------------------------------------------------------ *)
(** ** [LLMPlayer.receiveRequest]: where a decision comes from *)

Module PlayerExtra.
Import Parser Player.

(** Every submitted decision either takes the service's command, which
    then resolved in time to a reply the parser accepted, with the
    reply's reasoning; or is the random fallback. Reasoning is only ever
    that of a reply received in time, and the reported decision time
    never exceeds the deadline plus the synchronous overhead. *)
Theorem receiveRequest_outcomes (req : Request) (d : DecideOutcome) (ms overhead r : nat)
    (dec : Decision) :
  receiveRequest req d ms overhead r = Some dec ->
  wait req = false /\
  (usedFallback dec = false <->
     exists t resp, d = Resolves t (Some resp) /\ t <= ms /\
       parse (rtext resp) req = Some (choice dec) /\ reasoning dec = rreasoning resp) /\
  (usedFallback dec = true -> choice dec = getRandomValidChoice req r) /\
  (forall x, reasoning dec = Some x ->
     exists t resp, d = Resolves t (Some resp) /\ t <= ms /\ rreasoning resp = Some x) /\
  decisionTime dec <= ms + overhead.
Proof.
  unfold receiveRequest; destruct (wait req) eqn:Hw; [discriminate|].
  intros H; injection H as <-; split; [reflexivity|].
  unfold decide_request.
  destruct d as [t v|t|]; cbn [race].
  1: destruct (t <=? ms) eqn:Ht; [apply Nat.leb_le in Ht; destruct v as [resp|]|].
  1: destruct (parse (rtext resp) req) as [c|] eqn:Hp.
  5: destruct (t <=? ms) eqn:Ht.
  all: cbn [choice reasoning decisionTime usedFallback].
  all: split; [split|split; [|split]]; try lia; try discriminate; try reflexivity.
  all: try (intros (t' & resp' & Heq & Hle & Hp' & _); first [discriminate |
             injection Heq as <- <-; congruence |
             injection Heq as <- _; apply Nat.leb_gt in Ht; lia]).
  all: try (intros x Hx; first [discriminate | exists t, resp; auto]).
  all: try (intros _; exists t, resp; auto).
  all: apply Nat.leb_le in Ht; lia.
Qed.

(** Witness: the service answers "I'll use Thunderbolt" after 1200 ms on
    the sample move request; the command is taken, not the fallback. *)
Lemma receiveRequest_outcomes_witness :
  let dec := {| choice := "move 1"; reasoning := Some "It is fast.";
                decisionTime := 1205; usedFallback := false |} in
  receiveRequest (Samples.move_request false)
    (Resolves 1200 (Some {| rtext := "I'll use Thunderbolt"; rreasoning := Some "It is fast." |}))
    llmTimeout 5 0 = Some dec /\ decisionTime dec <= llmTimeout + 5.
Proof.
  cbv zeta; split; [vm_compute; reflexivity|].
  exact (proj2 (proj2 (proj2 (proj2 (receiveRequest_outcomes (Samples.move_request false)
    (Resolves 1200 (Some {| rtext := "I'll use Thunderbolt"; rreasoning := Some "It is fast." |}))
    llmTimeout 5 0 _ (eq_refl _)))))).
Defined.

End PlayerExtra.

(* ------------------------------------------------------------------ *)
(** ** The winner credited by the end handler, and the HTTP routes *)

Module RoutesExtra.
Import Manager Turns Dialogue Routes ManagerClaims.
Local Open Scope list_scope.

Lemma prefix_app (p x : string) : String.prefix p (p ++ x) = true.
Proof.
  induction p as [|a p IH]; simpl; [now destruct x|].
  destruct (ascii_dec a a) as [_|n]; [exact IH|now destruct n].
Qed.

Lemma includes_startsWith (s p : string) : startsWith s p = true -> includes s p = true.
Proof. intros H; destruct s; cbn [includes]; now rewrite H. Qed.

Lemma includes_app_l (p x : string) : includes (p ++ x) p = true.
Proof. apply includes_startsWith, prefix_app. Qed.

Lemma player_name_nonempty (c : LLMConfig) : exists a r, player_name c = String a r.
Proof. unfold player_name; destruct (provider c) as [|a r]; simpl; eauto. Qed.

Lemma nth_set_ended (i : nat) (l : list bool) : nth i (set_ended i l) true = true.
Proof.
  revert i; induction l as [|x l IH]; intros [|i]; simpl; auto.
Qed.

(** The end handler credits p1's registered name to p1; p2's name is
    credited to p2 exactly when it does not contain p1's provider, so
    with equal providers p2's win is recorded as p1's. *)
Theorem end_winner_names (p1 p2 : LLMConfig) :
  end_winner p1 p2 (Some (player_name p1)) = Some (P1, p1) /\
  (end_winner p1 p2 (Some (player_name p2)) = Some (P2, p2) <->
     includes (player_name p2) (provider p1) = false) /\
  (provider p1 = provider p2 ->
     end_winner p1 p2 (Some (player_name p2)) = Some (P1, p1)).
Proof.
  unfold end_winner; split; [|split].
  - destruct (player_name_nonempty p1) as (a & r & Ha); rewrite Ha, <- Ha.
    unfold player_name at 1; now rewrite includes_app_l.
  - destruct (player_name_nonempty p2) as (a & r & Ha); rewrite Ha, <- Ha.
    destruct (includes (player_name p2) (provider p1)); split; intros H;
      try reflexivity; try discriminate.
  - intros Hp; destruct (player_name_nonempty p2) as (a & r & Ha); rewrite Ha, <- Ha.
    unfold player_name at 1; now rewrite <- Hp, includes_app_l.
Qed.

(** Witness: p1 is claude/sonnet and p2 claude/opus; p2's name is
    credited to p1. *)
Lemma end_winner_names_witness :
  end_winner {| provider := "claude"; model := "sonnet" |} {| provider := "claude"; model := "opus" |}
    (Some "claude/opus") = Some (P1, {| provider := "claude"; model := "sonnet" |}).
Proof.
  exact (proj2 (proj2 (end_winner_names {| provider := "claude"; model := "sonnet" |}
                         {| provider := "claude"; model := "opus" |})) eq_refl).
Defined.

Lemma create_none (ctor : string -> option string) (c : LLMConfig) :
  create ctor c = None <-> known_provider (provider c) = true /\ ctor (provider c) = None.
Proof.
  unfold create, known_provider; cbn [existsb].
  repeat match goal with
  | |- context [String.eqb (provider c) ?q] =>
      let E := fresh "E" in
      destruct (String.eqb (provider c) q) eqn:E;
      [apply String.eqb_eq in E; rewrite E; cbn [orb]; intuition|]
  end.
  cbn [orb]; intuition discriminate.
Qed.

Lemma startBattleCfg_gate (ctor : string -> option string) (p1 p2 : LLMConfig) (m : Manager) :
  startBattleCfg ctor p1 p2 m =
    match newActiveBattle ctor p1 p2, startBattle m with
    | _, (AlreadyInProgress, _) => (StartThrow "Battle already in progress", m)
    | Some e, (Started _, _) => (StartThrow e, m)
    | None, (Started id, m') => (StartOk id, m')
    end.
Proof.
  unfold startBattleCfg, startBattle.
  destruct (activeBattle m) as [i|]; [destruct (negb (isEnded m i))|];
    destruct (newActiveBattle ctor p1 p2); reflexivity.
Qed.

Lemma startBattleCfg_started (ctor : string -> option string) (p1 p2 : LLMConfig)
    (m m' : Manager) (id : nat) :
  startBattleCfg ctor p1 p2 m = (StartOk id, m') -> startBattle m = (Started id, m').
Proof.
  rewrite startBattleCfg_gate.
  destruct (newActiveBattle ctor p1 p2), (startBattle m) as [[|i] m0]; congruence.
Qed.

Lemma startBattleCfg_throw (ctor : string -> option string) (p1 p2 : LLMConfig)
    (m m' : Manager) (msg : string) :
  startBattleCfg ctor p1 p2 m = (StartThrow msg, m') -> m' = m.
Proof.
  rewrite startBattleCfg_gate.
  destruct (newActiveBattle ctor p1 p2), (startBattle m) as [[|i] m0]; congruence.
Qed.

(** A battle is constructed exactly when the gate's [startBattle] lets it
    through and both players' providers are among the five the factory
    knows, with adapter constructors that return; the manager then
    changes as in [startBattle]. Otherwise the start throws and leaves
    the manager as it was: with "Battle already in progress" while a
    battle is active, and otherwise with p1's adapter error before
    p2's. *)
Theorem startBattleCfg_ok (ctor : string -> option string) (p1 p2 : LLMConfig) (m : Manager) :
  (forall id m', startBattleCfg ctor p1 p2 m = (StartOk id, m') <->
     known_provider (provider p1) = true /\ known_provider (provider p2) = true /\
     ctor (provider p1) = None /\ ctor (provider p2) = None /\
     startBattle m = (Started id, m')) /\
  (status_route m = true ->
     startBattleCfg ctor p1 p2 m = (StartThrow "Battle already in progress", m)) /\
  (status_route m = false ->
     forall msg, (create ctor p1 = Some msg \/ (create ctor p1 = None /\ create ctor p2 = Some msg)) ->
     startBattleCfg ctor p1 p2 m = (StartThrow msg, m)).
Proof.
  split; [|split].
  - intros id m'; rewrite startBattleCfg_gate; unfold newActiveBattle.
    pose proof (create_none ctor p1) as C1; pose proof (create_none ctor p2) as C2.
    destruct (create ctor p1), (create ctor p2), (startBattle m) as [[|i] m0];
      (split;
      [ intros H; try discriminate; injection H as <- <-;
        destruct (proj1 C1 eq_refl), (proj1 C2 eq_refl); repeat split; assumption
      | intros H; destruct H as (K1 & K2 & N1 & N2 & S);
        first [ pose proof (proj2 C1 (conj K1 N1)) as X; discriminate X
              | pose proof (proj2 C2 (conj K2 N2)) as X; discriminate X
              | discriminate S
              | congruence ] ]).
  - unfold status_route, startBattleCfg; destruct (activeBattle m) as [i|]; [|discriminate].
    intros H; rewrite H; reflexivity.
  - unfold status_route, startBattleCfg, newActiveBattle; intros H msg Hc.
    destruct (activeBattle m) as [i|]; [rewrite H|];
      (destruct Hc as [-> | [-> ->]]; reflexivity).
Qed.

(** Witness: the first battle, claude against openai, with every key
    set. *)
Lemma startBattleCfg_ok_witness :
  startBattleCfg all_keys_set claude_sonnet openai_gpt4o initial_manager =
    (StartOk 0, {| sessions := [false]; activeBattle := Some 0 |}) /\
  startBattleCfg (fun p => if String.eqb p "openai" then Some "OPENAI_API_KEY is not set" else None)
    claude_sonnet openai_gpt4o initial_manager =
    (StartThrow "OPENAI_API_KEY is not set", initial_manager).
Proof.
  split.
  - apply (proj2 (proj1 (startBattleCfg_ok all_keys_set claude_sonnet openai_gpt4o
                           initial_manager) 0 _)).
    repeat split; reflexivity.
  - apply (proj2 (proj2 (startBattleCfg_ok
      (fun p => if String.eqb p "openai" then Some "OPENAI_API_KEY is not set" else None)
      claude_sonnet openai_gpt4o initial_manager)) eq_refl).
    right; split; reflexivity.
Defined.

(** [POST /start] while a battle is active answers 400 or 409 and leaves
    the manager as it was. *)
Theorem start_route_busy (ctor : string -> option string) (res : option string) (p1 p2 : option LLMConfig)
    (m : Manager) :
  status_route m = true ->
  exists code, start_route ctor res p1 p2 m = (code, m) /\ (code = 400 \/ code = 409).
Proof.
  unfold status_route, start_route, startBattleCfg; intros H.
  destruct (activeBattle m) as [i|]; [|discriminate]; rewrite H.
  destruct p1 as [c1|], p2 as [c2|]; eauto.
  destruct (String.eqb (provider c1) "" || String.eqb (provider c2) ""); eauto.
Qed.

(** Witness: a second start while the first battle is active. *)
Lemma start_route_busy_witness :
  start_route all_keys_set None (Some claude_sonnet) (Some claude_opus)
    {| sessions := [false]; activeBattle := Some 0 |} =
    (409, {| sessions := [false]; activeBattle := Some 0 |}).
Proof.
  destruct (start_route_busy all_keys_set None (Some claude_sonnet) (Some claude_opus)
              {| sessions := [false]; activeBattle := Some 0 |} eq_refl) as (code & H & _).
  rewrite H; f_equal; vm_compute in H; congruence.
Defined.

(** From a reachable manager, [POST /start] leaves the manager as it
    was or performs the gate's [startBattle]; the result is reachable,
    and a 200 answer means the new battle is the one active session. *)
Theorem start_route_effect (ctor : string -> option string) (res : option string) (p1 p2 : option LLMConfig)
    (m : Manager) :
  reachable m ->
  let '(code, m') := start_route ctor res p1 p2 m in
  reachable m' /\
  (m' = m \/ exists id, startBattle m = (Started id, m')) /\
  (code = 200 -> res = None /\ status_route m' = true /\ active_count m' = 1).
Proof.
  intros Hr.
  assert (Hgen : forall m' id, startBattle m = (Started id, m') ->
            reachable m' /\ status_route m' = true /\ active_count m' = 1).
  { intros m' id Hs.
    assert (Hr' : reachable m') by (eapply ReachStep; [exact Hr|econstructor; exact Hs]).
    split; [exact Hr'|].
    assert (Ha : activeBattle m' = Some (length (sessions m)) /\
                 sessions m' = sessions m ++ [false]).
    { unfold startBattle in Hs; destruct (activeBattle m) as [i|];
        [destruct (negb (isEnded m i))|]; try discriminate; injection Hs as _ <-; auto. }
    destruct Ha as [Ha Hse]; unfold status_route, isEnded, active_count.
    rewrite Ha, Hse, app_nth2, Nat.sub_diag by lia; split; [reflexivity|].
    destruct (reachable_inv m' Hr') as [[Hn _]|(n & b & Hn & Ha')];
      [rewrite Hse in Hn; destruct (sessions m); discriminate|].
    rewrite Ha in Ha'; injection Ha' as Hlen.
    rewrite Hse in Hn.
    assert (Hb : b = false).
    { pose proof (f_equal (fun l => nth (length (sessions m)) l true) Hn) as E.
      cbn beta in E; rewrite app_nth2, Nat.sub_diag in E by lia.
      rewrite Hlen, nth_repeat_last in E; simpl in E; congruence. }
    rewrite Hn, Hb, count_repeat_last; reflexivity. }
  unfold start_route.
  destruct p1 as [c1|], p2 as [c2|]; try (split; [exact Hr|split; [left; reflexivity|discriminate]]).
  destruct (String.eqb (provider c1) "" || String.eqb (provider c2) "");
    [split; [exact Hr|split; [left; reflexivity|discriminate]]|].
  destruct (startBattleCfg ctor c1 c2 m) as [[id|msg] m'] eqn:Hs.
  - pose proof (startBattleCfg_started ctor c1 c2 m m' id Hs) as Hsb.
    destruct (Hgen m' id Hsb) as (Hr' & Hst & Hc).
    split; [exact Hr'|split; [right; eauto|]].
    destruct res as [msg|]; [|auto].
    destruct (includes msg "already in progress"); discriminate.
  - pose proof (startBattleCfg_throw ctor c1 c2 m m' msg Hs); subst m'; split; [exact Hr|split; [left; reflexivity|]].
    destruct (includes msg "already in progress"); discriminate.
Qed.

(** Witness: the first start from the initial manager. *)
Lemma start_route_effect_witness :
  reachable initial_manager /\
  start_route all_keys_set None (Some claude_sonnet) (Some claude_opus) initial_manager =
    (200, {| sessions := [false]; activeBattle := Some 0 |}) /\
  active_count {| sessions := [false]; activeBattle := Some 0 |} = 1.
Proof.
  pose proof (start_route_effect all_keys_set None (Some claude_sonnet) (Some claude_opus)
                initial_manager ReachInit) as H.
  split; [exact ReachInit|split; [reflexivity|]].
  vm_compute in H; destruct H as (_ & _ & H); destruct (H eq_refl) as (_ & _ & Hc).
  exact Hc.
Defined.

(** [GET /status] reports an active battle exactly when one session is
    Active. *)
Theorem status_route_active_count (m : Manager) :
  reachable m -> (status_route m = true <-> active_count m = 1).
Proof.
  intros Hr; unfold status_route, active_count, isEnded.
  destruct (reachable_inv m Hr) as [[Hs Ha]|(n & b & Hs & Ha)]; rewrite Hs, Ha.
  - simpl; split; discriminate.
  - rewrite nth_repeat_last, count_repeat_last; destruct b; simpl; split;
      auto; discriminate.
Qed.

(** Witness: after one start, the status route reports it. *)
Lemma status_route_active_count_witness :
  status_route {| sessions := [true; false]; activeBattle := Some 1 |} = true /\
  active_count {| sessions := [true; false]; activeBattle := Some 1 |} = 1.
Proof.
  split; [reflexivity|].
  apply (status_route_active_count {| sessions := [true; false]; activeBattle := Some 1 |}).
  - apply (ReachStep {| sessions := [true]; activeBattle := Some 0 |});
      [|apply (StepStart _ (Started 1)); reflexivity].
    apply (ReachStep {| sessions := [false]; activeBattle := Some 0 |});
      [|change {| sessions := [true]; activeBattle := Some 0 |}
          with (endSession {| sessions := [false]; activeBattle := Some 0 |} 0);
        apply StepEnd].
    apply (ReachStep initial_manager); [exact ReachInit|].
    apply (StepStart _ (Started 0)); reflexivity.
  - reflexivity.
Defined.

(** [POST /end] answers 404 exactly when there is no current battle; it
    never leaves a battle active, keeps the manager reachable, and after
    a 200 the log route still shows the ended battle while the next
    start passes the gate. *)
Theorem end_route_spec (m : Manager) :
  reachable m ->
  let '(code, m') := end_route m in
  reachable m' /\ status_route m' = false /\
  (code = 404 <-> activeBattle m = None) /\
  (code = 200 -> log_route_active m' = true /\ exists id, fst (startBattle m') = Started id).
Proof.
  intros Hr; unfold end_route.
  destruct (activeBattle m) as [i|] eqn:Ha.
  - split; [eapply ReachStep; [exact Hr|apply StepEnd]|].
    unfold status_route, log_route_active, startBattle, isEnded, endSession; cbn.
    rewrite Ha, nth_set_ended; split; [reflexivity|split; [split; discriminate|]].
    intros _; split; [reflexivity|]; eexists; reflexivity.
  - split; [exact Hr|]; unfold status_route; rewrite Ha.
    split; [reflexivity|split; [split; auto|discriminate]].
Qed.

(** Witness: ending the first battle. *)
Lemma end_route_spec_witness :
  end_route {| sessions := [false]; activeBattle := Some 0 |} =
    (200, {| sessions := [true]; activeBattle := Some 0 |}) /\
  status_route {| sessions := [true]; activeBattle := Some 0 |} = false.
Proof.
  split; [reflexivity|].
  pose proof (end_route_spec {| sessions := [false]; activeBattle := Some 0 |}
    (ReachStep initial_manager _ ReachInit
       (StepStart initial_manager (Started 0) {| sessions := [false]; activeBattle := Some 0 |}
          eq_refl))) as H.
  exact (proj1 (proj2 H)).
Defined.

End RoutesExtra.

(* ------------------------------------------------------------------ *)
(** ** [SimulatorBridge.listenToStream] and [parseWinner] *)

Module BridgeExtra.
Import Bridge BridgeFacts StringFacts.
Local Open Scope list_scope.

Lemma initial_states_app (l1 l2 : list BridgeEvent) :
  initial_states (l1 ++ l2) = initial_states l1 ++ initial_states l2.
Proof. induction l1 as [|[] l1 IH]; simpl; try rewrite IH; reflexivity. Qed.

Lemma on_chunk_facts (b : BridgeState) (c : string) :
  bridgeLog (on_chunk b c) = bridgeLog b ++ [c] /\
  ended (on_chunk b c) = ended b || closes c /\
  (initialStateResolved b = true ->
     initialStateResolved (on_chunk b c) = true /\
     initial_states (events (on_chunk b c)) = initial_states (events b)) /\
  (initialStateResolved b = false -> opens c = false ->
     initialStateResolved (on_chunk b c) = false /\
     initialChunks (on_chunk b c) = initialChunks b ++ [c] /\
     initial_states (events (on_chunk b c)) = initial_states (events b)) /\
  (initialStateResolved b = false -> opens c = true ->
     initialStateResolved (on_chunk b c) = true /\
     initial_states (events (on_chunk b c)) = initial_states (events b) ++ [initialChunks b ++ [c]]).
Proof.
  unfold on_chunk, opens, closes; cbn [initialStateResolved initialChunks bridgeLog events ended].
  destruct (initialStateResolved b), (includes c "|switch|" || includes c "|turn|"),
    (includes c "|win|" || includes c "|tie|"); cbn;
    rewrite ?initial_states_app, ?orb_true_r, ?orb_false_r; cbn; rewrite ?app_nil_r;
    repeat split; intros; try discriminate; try reflexivity.
Qed.

Lemma fold_log (cs : list string) (b : BridgeState) :
  bridgeLog (fold_left on_chunk cs b) = bridgeLog b ++ cs /\
  ended (fold_left on_chunk cs b) = ended b || existsb closes cs.
Proof.
  revert b; induction cs as [|c cs IH]; intros b; simpl.
  - now rewrite app_nil_r, orb_false_r.
  - destruct (IH (on_chunk b c)) as [H1 H2].
    destruct (on_chunk_facts b c) as (L & E & _).
    rewrite H1, H2, L, E, <- app_assoc, orb_assoc; split; reflexivity.
Qed.

Lemma fold_resolved (cs : list string) (b : BridgeState) :
  initialStateResolved b = true ->
  initial_states (events (fold_left on_chunk cs b)) = initial_states (events b).
Proof.
  revert b; induction cs as [|c cs IH]; intros b Hb; simpl; [reflexivity|].
  destruct (on_chunk_facts b c) as (_ & _ & R & _).
  destruct (R Hb) as [Hr Hs]; rewrite IH by exact Hr; exact Hs.
Qed.

Lemma fold_unopened (cs : list string) (b : BridgeState) :
  initialStateResolved b = false -> forallb (fun c => negb (opens c)) cs = true ->
  initialStateResolved (fold_left on_chunk cs b) = false /\
  initialChunks (fold_left on_chunk cs b) = initialChunks b ++ cs /\
  initial_states (events (fold_left on_chunk cs b)) = initial_states (events b).
Proof.
  revert b; induction cs as [|c cs IH]; intros b Hb Hcs; simpl.
  - now rewrite app_nil_r.
  - simpl in Hcs; apply andb_true_iff in Hcs as [Hc Hcs]; apply negb_true_iff in Hc.
    destruct (on_chunk_facts b c) as (_ & _ & _ & U & _).
    destruct (U Hb Hc) as (Hr & Hi & Hs).
    destruct (IH _ Hr Hcs) as (Hr' & Hi' & Hs').
    rewrite Hr', Hi', Hs', Hi, Hs, <- app_assoc; auto.
Qed.

(** Over a fresh bridge and the chunks the omniscient stream yields,
    whether it closes or throws: the battle log is the chunks in order,
    the bridge is ended exactly when some chunk carries [|win|] or
    [|tie|], and the initial state is resolved once, with every chunk up
    to and including the first one carrying [|switch|] or [|turn|] (never
    when there is none). *)
Theorem listenToStream_fresh (cs : list string) (e : StreamEnd) :
  let b := listenToStream fresh_bridge cs e in
  bridgeLog b = cs /\ ended b = existsb closes cs /\
  (forall pre c post, cs = pre ++ c :: post ->
     forallb (fun c => negb (opens c)) pre = true -> opens c = true ->
     initial_states (events b) = [pre ++ [c]]) /\
  (forallb (fun c => negb (opens c)) cs = true -> initial_states (events b) = []).
Proof.
  assert (He : initial_states (events (listenToStream fresh_bridge cs e)) =
                         initial_states (events (fold_left on_chunk cs fresh_bridge))).
  { unfold listenToStream; destruct e; cbn; [reflexivity|].
    rewrite initial_states_app, app_nil_r; reflexivity. }
  assert (Hl : bridgeLog (listenToStream fresh_bridge cs e) =
                 bridgeLog (fold_left on_chunk cs fresh_bridge) /\
               ended (listenToStream fresh_bridge cs e) =
                 ended (fold_left on_chunk cs fresh_bridge)).
  { unfold listenToStream; destruct e; split; reflexivity. }
  cbv zeta; destruct Hl as [Hl1 Hl2]; rewrite Hl1, Hl2, He.
  destruct (fold_log cs fresh_bridge) as [L E].
  split; [exact L|split; [exact E|split]].
  - intros pre c post -> Hpre Hc.
    rewrite fold_left_app; cbn [fold_left].
    destruct (fold_unopened pre fresh_bridge eq_refl Hpre) as (Hr & Hi & Hs).
    destruct (on_chunk_facts (fold_left on_chunk pre fresh_bridge) c) as (_ & _ & _ & _ & O).
    destruct (O Hr Hc) as [Hr' Hs'].
    rewrite fold_resolved by exact Hr'.
    rewrite Hs', Hs, Hi; reflexivity.
  - intros Hcs; destruct (fold_unopened cs fresh_bridge eq_refl Hcs) as (_ & _ & Hs).
    exact Hs.
Qed.

(** Witness: a request chunk, then the chunk that starts the battle. *)
Lemma listenToStream_fresh_witness :
  initial_states (events (listenToStream fresh_bridge
    ["|request|"; "|switch|p1a: Pikachu"; "|turn|1"] Closed)) = [["|request|"; "|switch|p1a: Pikachu"]].
Proof.
  exact (proj1 (proj2 (proj2 (listenToStream_fresh ["|request|"; "|switch|p1a: Pikachu"; "|turn|1"]
    Closed))) ["|request|"] "|switch|p1a: Pikachu" ["|turn|1"] eq_refl eq_refl eq_refl).
Defined.

(** Matching a pattern without the character [c] does not look past [c]. *)
Lemma prefix_before (p s t : string) (c : ascii) :
  no_char c p = true -> String.prefix p (s ++ String c t) = String.prefix p s.
Proof.
  revert s; induction p as [|a p IH]; intros s H.
  - destruct s; reflexivity.
  - unfold no_char in H; simpl in H; apply andb_true_iff in H as [Ha Hp].
    destruct s as [|b s]; simpl.
    + destruct (ascii_dec a c) as [->|]; [now rewrite Ascii.eqb_refl in Ha|reflexivity].
    + destruct (ascii_dec a b); [apply IH; exact Hp|reflexivity].
Qed.

Lemma win_regex_skip (pre t : string) :
  includes pre "|win|" = false ->
  win_regex (pre ++ String (ascii_of_nat 10) t) = win_regex t.
Proof.
  induction pre as [|a pre IH]; intros H.
  - reflexivity.
  - cbn [includes] in H; apply orb_false_iff in H as [Hs H].
    change (String a pre ++ String (ascii_of_nat 10) t)%string
      with (String a (pre ++ String (ascii_of_nat 10) t)).
    assert (Hp : String.prefix "|win|" (String a (pre ++ String (ascii_of_nat 10) t)) = false)
      by exact (eq_trans (prefix_before "|win|" (String a pre) t (ascii_of_nat 10) eq_refl) Hs).
    cbn [win_regex]; rewrite Hp; exact (IH H).
Qed.

Lemma take_line_app (w post : string) :
  forallb (fun c => negb (is_line_terminator c)) (list_ascii_of_string w) = true ->
  (post = EmptyString \/ exists c r, post = String c r /\ is_line_terminator c = true) ->
  take_line (w ++ post) = w.
Proof.
  intros Hw Hp; induction w as [|a w IH]; simpl.
  - destruct Hp as [->|(c & r & -> & Hc)]; simpl; [reflexivity|now rewrite Hc].
  - simpl in Hw; apply andb_true_iff in Hw as [Ha Hw]; apply negb_true_iff in Ha.
    now rewrite Ha, IH.
Qed.

Lemma win_regex_some (s w : string) : win_regex s = Some w -> includes s "|win|" = true.
Proof.
  induction s as [|a s IH]; [discriminate|].
  cbn [win_regex includes]; unfold startsWith.
  destruct (String.prefix "|win|" (String a s)); [reflexivity|].
  intros H; rewrite (IH H); apply orb_true_r.
Qed.

Lemma parseWinner_after (pre w post : string) :
  includes pre "|win|" = false -> w <> EmptyString ->
  forallb (fun c => negb (is_line_terminator c)) (list_ascii_of_string w) = true ->
  (post = EmptyString \/ exists c r, post = String c r /\ is_line_terminator c = true) ->
  parseWinner (pre ++ String (ascii_of_nat 10) ("|win|" ++ w ++ post)) = Some w.
Proof.
  intros Hpre Hw Hline Hpost.
  unfold parseWinner; rewrite win_regex_skip by exact Hpre.
  assert (Heq : forall s, win_regex s =
    match (if String.prefix "|win|" s
           then match take_line (substring 5 (String.length s) s) with
                | EmptyString => None
                | w => Some w
                end
           else None) with
    | Some w => Some w
    | None => match s with EmptyString => None | String _ r => win_regex r end
    end) by (intros []; reflexivity).
  assert (Hsub : forall x, substring 5 (String.length ("|win|" ++ x)) ("|win|" ++ x) = x).
  { intros x; cbn [append String.length substring].
    induction x as [|a x IH]; simpl; [reflexivity|now rewrite IH]. }
  rewrite Heq, RoutesExtra.prefix_app, Hsub, take_line_app by assumption.
  destruct w; [contradiction|reflexivity].
Qed.

(** [parseWinner] returns the rest of the line after the first [|win|]
    marker of a chunk (the marker at the start of a line); a chunk
    without the marker, such as a tie, has no winner. *)
Theorem parseWinner_line (pre w post : string) :
  includes pre "|win|" = false -> w <> EmptyString ->
  forallb (fun c => negb (is_line_terminator c)) (list_ascii_of_string w) = true ->
  (post = EmptyString \/ exists c r, post = String c r /\ is_line_terminator c = true) ->
  parseWinner (pre ++ String (ascii_of_nat 10) ("|win|" ++ w ++ post)) = Some w /\
  (forall chunk, includes chunk "|win|" = false -> parseWinner chunk = None).
Proof.
  intros Hpre Hw Hline Hpost; split; [exact (parseWinner_after pre w post Hpre Hw Hline Hpost)|].
  intros chunk Hc; unfold parseWinner.
  destruct (win_regex chunk) as [x|] eqn:E; [|reflexivity].
  apply win_regex_some in E; congruence.
Qed.

(** Witness: a chunk with an update and the winner's line. *)
Lemma parseWinner_line_witness :
  parseWinner ("update" ++ String (ascii_of_nat 10) "|win|claude/opus") = Some "claude/opus".
Proof.
  refine (proj1 (parseWinner_line "update" "claude/opus" "" eq_refl _ eq_refl (or_introl eq_refl))).
  discriminate.
Defined.

End BridgeExtra.

(* ------------------------------------------------------------------ *)
(** ** [ActiveBattle.logBattleEvents]: the dialogue calls *)

Module DialogueExtra.
Import Turns Dialogue StringFacts.
Local Open Scope list_scope.

Lemma startsWith_app (p x : string) : startsWith (p ++ x) p = true.
Proof. apply RoutesExtra.prefix_app. Qed.

(** Settles every [line.startsWith(marker)] test on a line whose marker
    is written out. *)
Ltac decide_starts :=
  repeat match goal with
  | |- context [startsWith (?p ++ ?x) ?p] => rewrite (startsWith_app p x)
  | |- context [startsWith ?l ?q] =>
      let e := fresh in
      assert (e : startsWith l q = false) by reflexivity; rewrite e; clear e
  end.

Lemma split_field (m x : string) :
  no_char "|" m = true -> no_char "|" x = true ->
  split "|" (String "|" (m ++ String "|" x)) = [""; m; x].
Proof.
  intros Hm Hx; cbn [split]; rewrite Ascii.eqb_refl.
  rewrite split_first by exact Hm; rewrite (TurnClaims.split_no_sep "|" x Hx); reflexivity.
Qed.

Lemma trim_space (s : string) : trim (String " " s) = trim s.
Proof. reflexivity. Qed.

Lemma trim_nonspace (c : ascii) (r : string) :
  is_space c = false -> exists y, trim (String c r) = String c y.
Proof.
  intros Hc; unfold trim; rewrite trimStart_nonspace by exact Hc.
  change (String c r) with ("" ++ String c r)%string.
  assert (Hrev : rev_string (String c r) = (rev_string r ++ String c "")%string).
  { unfold rev_string; cbn [list_ascii_of_string rev].
    rewrite <- (string_of_list_ascii_of_string (rev_string r)) at 1.
    unfold rev_string; rewrite list_ascii_of_string_of_list_ascii.
    generalize (rev (list_ascii_of_string r)); intros l.
    induction l as [|a l IH]; simpl; [reflexivity|now rewrite IH]. }
  cbn [append]; rewrite Hrev.
  destruct (trimStart_snoc (rev_string r) c Hc) as [y ->].
  rewrite rev_string_snoc; eauto.
Qed.

Lemma trash_turns_app (a b : list DialogueCall) :
  trash_turns (a ++ b) = trash_turns a ++ trash_turns b.
Proof. induction a as [|x a IH]; simpl; [|destruct (dtype x)]; try rewrite IH; reflexivity. Qed.

Lemma spaced_snoc (a t : Z) (ts : list jsnum) :
  spaced a ts -> (last_trash a ts + 3 <= t)%Z ->
  spaced a (ts ++ [JNum t]) /\ last_trash a (ts ++ [JNum t]) = t.
Proof.
  revert a; induction ts as [|[x|] ts IH]; intros a Hs Ht; simpl in *.
  - auto.
  - destruct Hs as [Hx Hs]; destruct (IH x Hs Ht); auto.
  - contradiction.
Qed.

Section Spacing.
Variables p1Config p2Config : LLMConfig.
Variable rand : nat -> Q.

Lemma turn_line_inv (st : LogState) (line : string) :
  trash_inv st -> trash_inv (turn_line p1Config p2Config rand st line).
Proof.
  intros [Hs Hl]; unfold turn_line, with_turn; cbn [lastTrashTalkTurn rng calls lturn lastMoveUser].
  destruct (match field line 2 with Some f => parseInt f | None => JNaN end) as [t|];
    [|split; assumption].
  destruct (3 <=? t - lastTrashTalkTurn st)%Z eqn:E; [|split; assumption].
  destruct (q_lt (rand (rng st)) (1 # 5)); [|split; assumption].
  unfold trash_inv; cbn [calls lastTrashTalkTurn].
  rewrite trash_turns_app; cbn.
  apply Z.leb_le in E; apply spaced_snoc; [exact Hs|lia].
Qed.

Lemma log_line_cases (lm : option string) (st : LogState) (line : string) :
  let st' := snd (log_line p1Config p2Config rand lm st line) in
  st' = turn_line p1Config p2Config rand st line \/
  (lastTrashTalkTurn st' = lastTrashTalkTurn st /\
   exists cs, calls st' = calls st ++ cs /\ trash_turns cs = []).
Proof.
  cbv zeta; unfold log_line.
  repeat match goal with |- context [if ?b then _ else _] => destruct b end;
    cbn [snd]; try (left; reflexivity);
    try (right; split; [reflexivity|exists []; rewrite app_nil_r; split; reflexivity]);
    repeat match goal with |- context [match ?o with Some _ => _ | None => _ end] =>
      destruct o end;
    try (right; split; [reflexivity|exists []; rewrite app_nil_r; split; reflexivity]);
    right; split; try reflexivity; eexists; split; reflexivity.
Qed.

Lemma log_line_inv (lm : option string) (st : LogState) (line : string) :
  trash_inv st -> trash_inv (snd (log_line p1Config p2Config rand lm st line)).
Proof.
  intros Hi; destruct (log_line_cases lm st line) as [-> | (Hl & cs & Hc & Ht)].
  - now apply turn_line_inv.
  - destruct Hi as [Hs Hl']; unfold trash_inv.
    rewrite Hc, trash_turns_app, Ht, app_nil_r, Hl; auto.
Qed.

Lemma logBattleEvents_inv (st : LogState) (chunk : string) :
  trash_inv st -> trash_inv (logBattleEvents p1Config p2Config rand st chunk).
Proof.
  unfold logBattleEvents.
  generalize (@None string); generalize (split (ascii_of_nat 10) chunk).
  intros lines; revert st; induction lines as [|l lines IH]; intros st lm Hi; simpl.
  - exact Hi.
  - pose proof (log_line_inv lm st l Hi) as H.
    destruct (log_line p1Config p2Config rand lm st l) as [lm' st']; now apply IH.
Qed.

End Spacing.

(** However the random draws fall, the trash-talk calls of a battle come
    at turns each at least 3 above the previous one, the first at least
    at turn 3. *)
Theorem trash_talk_spaced (p1 p2 : LLMConfig) (rand : nat -> Q) (chunks : list string) :
  spaced 0 (trash_turns (calls (fold_left (logBattleEvents p1 p2 rand) chunks initial_log))).
Proof.
  assert (H : forall st, trash_inv st ->
            trash_inv (fold_left (logBattleEvents p1 p2 rand) chunks st)).
  { induction chunks as [|c chunks IH]; intros st Hi; simpl; [exact Hi|].
    apply IH, logBattleEvents_inv, Hi. }
  apply H; split; reflexivity.
Qed.

(** A [|faint|] line makes two calls at the current turn: [own_faint]
    for the side that owns the fainted Pokemon and [opponent_faint] for
    the other, each facing the other's configuration and naming the
    Pokemon by the trimmed text after the colon. Nothing else changes. *)
Theorem faint_line_calls (p1 p2 : LLMConfig) (rand : nat -> Q) (lm : option string)
    (st : LogState) (pid : string) (c : ascii) (r : string) :
  no_char "|" pid = true -> no_char ":" pid = true ->
  no_char "|" (String c r) = true -> no_char ":" (String c r) = true -> is_space c = false ->
  let line := ("|faint|" ++ pid ++ ": " ++ String c r)%string in
  let s := side_of pid in
  log_line p1 p2 rand lm st line =
    (lm, with_calls st
      [{| dplayer := s; dtype := own_faint; dopponent := config_of p1 p2 (other s);
          dturn := lturn st; ownPokemon := Some (trim (String c r));
          opponentPokemon := None; moveName := None |};
       {| dplayer := other s; dtype := opponent_faint; dopponent := config_of p1 p2 s;
          dturn := lturn st; ownPokemon := None;
          opponentPokemon := Some (trim (String c r)); moveName := None |}]).
Proof.
  intros Hp1 Hp2 Hn1 Hn2 Hc; cbv zeta.
  assert (Hf : field ("|faint|" ++ pid ++ ": " ++ String c r) 2 = Some (pid ++ ": " ++ String c r)%string).
  { unfold field.
    assert (Hx : no_char "|" (pid ++ ": " ++ String c r) = true)
      by (rewrite !no_char_app, Hp1, Hn1; reflexivity).
    change ("|faint|" ++ pid ++ ": " ++ String c r)%string
      with (String "|" ("faint" ++ String "|" (pid ++ ": " ++ String c r))).
    rewrite (split_field "faint" _ eq_refl Hx); reflexivity. }
  assert (Hsp : split ":" (pid ++ ": " ++ String c r) = [pid; String " " (String c r)]).
  { change (": " ++ String c r)%string with (String ":" (String " " (String c r))).
    rewrite split_first by exact Hp2.
    rewrite TurnClaims.split_no_sep; [reflexivity|exact Hn2]. }
  destruct (trim_nonspace c r Hc) as [y Hy].
  assert (Hside : side_of (pid ++ ": " ++ String c r) = side_of pid).
  { unfold side_of, startsWith.
    change (pid ++ ": " ++ String c r)%string with (pid ++ String ":" (String " " (String c r)))%string.
    rewrite BridgeExtra.prefix_before by reflexivity; reflexivity. }
  unfold log_line; rewrite Hf; decide_starts.
  unfold starts_any, console_only_prefixes_1, console_only_prefixes_2; cbn [existsb];
    decide_starts; cbn [orb].
  assert (Hor : or_else (Some (pid ++ ": " ++ String c r)%string) "" = (pid ++ ": " ++ String c r)%string)
    by (destruct pid; reflexivity).
  cbv zeta; rewrite Hor, Hside, Hsp; cbn [nth_error option_map].
  rewrite trim_space, Hy; cbn [or_else]; rewrite <- Hy.
  unfold opponent_of; destruct (side_of pid); reflexivity.
Qed.

(** Witness: ["|faint|p2a: Charizard"]. *)
Lemma faint_line_calls_witness :
  calls (snd (log_line {| provider := "claude"; model := "opus" |}
    {| provider := "claude"; model := "sonnet" |} (fun _ => 0%Q) None initial_log
    "|faint|p2a: Charizard")) =
  [{| dplayer := P2; dtype := own_faint; dopponent := {| provider := "claude"; model := "opus" |};
      dturn := JNum 0; ownPokemon := Some "Charizard"; opponentPokemon := None; moveName := None |};
   {| dplayer := P1; dtype := opponent_faint; dopponent := {| provider := "claude"; model := "sonnet" |};
      dturn := JNum 0; ownPokemon := None; opponentPokemon := Some "Charizard"; moveName := None |}].
Proof.
  exact (f_equal (fun res => calls (snd res))
    (faint_line_calls {| provider := "claude"; model := "opus" |}
      {| provider := "claude"; model := "sonnet" |} (fun _ => 0%Q) None initial_log
      "p2a" "C" "harizard" eq_refl eq_refl eq_refl eq_refl eq_refl)).
Defined.

Lemma or_else_self (x : string) : or_else (Some x) "" = x.
Proof. destruct x; reflexivity. Qed.

Lemma win_line_step (p1 p2 : LLMConfig) (rand : nat -> Q) (lm : option string)
    (st : LogState) (w : string) :
  w <> EmptyString -> no_char "|" w = true ->
  exists s cfg, end_winner p1 p2 (Some w) = Some (s, cfg) /\
    log_line p1 p2 rand lm st ("|win|" ++ w) =
      (lm, with_calls st
        [mk_call P1 (match s with P1 => win | P2 => loss end) p2 (lturn st);
         mk_call P2 (match s with P1 => loss | P2 => win end) p1 (lturn st)]).
Proof.
  intros Hw Hn.
  assert (Hf : field ("|win|" ++ w) 2 = Some w).
  { unfold field; change ("|win|" ++ w)%string with (String "|" ("win" ++ String "|" w)).
    rewrite (split_field "win" w eq_refl Hn); reflexivity. }
  unfold log_line; rewrite Hf; decide_starts.
  unfold starts_any, console_only_prefixes_1, console_only_prefixes_2,
    console_only_prefixes_3; cbn [existsb]; decide_starts; cbn [orb].
  cbv zeta; rewrite or_else_self.
  unfold end_winner; destruct w as [|a r]; [contradiction|].
  destruct (includes (String a r) (provider p1)); eauto.
Qed.

Lemma split_app_sep (sep : ascii) (a b : string) :
  split sep (a ++ String sep b) = split sep a ++ split sep b.
Proof.
  induction a as [|c a IH]; simpl; [now rewrite Ascii.eqb_refl|].
  destruct (Ascii.eqb c sep); [now rewrite IH|].
  rewrite IH; destruct (split sep a) as [|v vs] eqn:E; [now apply split_not_nil in E|].
  reflexivity.
Qed.

Lemma no_line_terminator_nl (w : string) :
  forallb (fun c => negb (Bridge.is_line_terminator c)) (list_ascii_of_string w) = true ->
  no_char (ascii_of_nat 10) w = true.
Proof.
  unfold no_char; rewrite !forallb_forall; intros H ch Hin.
  specialize (H ch Hin).
  destruct (Ascii.eqb_spec ch (ascii_of_nat 10)) as [->|]; [discriminate H|reflexivity].
Qed.

Lemma string_app_nil_r (w : string) : (w ++ "")%string = w.
Proof. induction w as [|c w IH]; simpl; congruence. Qed.

(** When a chunk ends with the winner's line, the last two dialogue calls
    of [logBattleEvents] on it are [win] for the side the end handler
    credits, given [parseWinner] of the same chunk, and [loss] for the
    other, each facing the other's configuration. The winner's name is a
    nonempty rest of line without ['|']. *)
Theorem win_chunk_agrees (p1 p2 : LLMConfig) (rand : nat -> Q) (st : LogState)
    (pre w : string) :
  includes pre "|win|" = false -> w <> EmptyString -> no_char "|" w = true ->
  forallb (fun c => negb (Bridge.is_line_terminator c)) (list_ascii_of_string w) = true ->
  let chunk := (pre ++ String (ascii_of_nat 10) ("|win|" ++ w))%string in
  exists s cfg st0,
    end_winner p1 p2 (Bridge.parseWinner chunk) = Some (s, cfg) /\
    logBattleEvents p1 p2 rand st chunk =
      with_calls st0
        [mk_call P1 (match s with P1 => win | P2 => loss end) p2 (lturn st0);
         mk_call P2 (match s with P1 => loss | P2 => win end) p1 (lturn st0)].
Proof.
  intros Hpre Hw Hn Hl; cbv zeta.
  pose proof (BridgeExtra.parseWinner_after pre w "" Hpre Hw Hl (or_introl eq_refl)) as Hp.
  rewrite string_app_nil_r in Hp; rewrite Hp.
  unfold logBattleEvents; rewrite split_app_sep.
  rewrite (TurnClaims.split_no_sep _ ("|win|" ++ w))
    by (rewrite no_char_app, (no_line_terminator_nl w Hl); reflexivity).
  rewrite fold_left_app; cbn [fold_left].
  destruct (fold_left (fun acc line => log_line p1 p2 rand (fst acc) (snd acc) line)
              (split (ascii_of_nat 10) pre) (None, st)) as [lm0 st0].
  cbn [fst snd].
  destruct (win_line_step p1 p2 rand lm0 st0 w Hw Hn) as (s & cfg & He & Hlog).
  rewrite Hlog; exists s, cfg, st0; split; [exact He|reflexivity].
Qed.

(** Witness: ["update\n|win|claude/opus"] with p1 on claude. *)
Lemma win_chunk_agrees_witness :
  exists s cfg st0,
    end_winner {| provider := "claude"; model := "opus" |}
      {| provider := "openai"; model := "gpt-4o" |}
      (Bridge.parseWinner ("update" ++ String (ascii_of_nat 10) ("|win|" ++ "claude/opus"))) =
      Some (s, cfg) /\
    logBattleEvents {| provider := "claude"; model := "opus" |}
      {| provider := "openai"; model := "gpt-4o" |} (fun _ => 0%Q) initial_log
      ("update" ++ String (ascii_of_nat 10) ("|win|" ++ "claude/opus")) =
      with_calls st0
        [mk_call P1 (match s with P1 => win | P2 => loss end)
           {| provider := "openai"; model := "gpt-4o" |} (lturn st0);
         mk_call P2 (match s with P1 => loss | P2 => win end)
           {| provider := "claude"; model := "opus" |} (lturn st0)].
Proof.
  refine (win_chunk_agrees {| provider := "claude"; model := "opus" |}
      {| provider := "openai"; model := "gpt-4o" |} (fun _ => 0%Q) initial_log
      "update" "claude/opus" eq_refl _ eq_refl eq_refl).
  discriminate.
Defined.

Section MoveNames.
Variables p1Config p2Config : LLMConfig.
Variable rand : nat -> Q.

Let step := fun (acc : option string * LogState) line =>
  log_line p1Config p2Config rand (fst acc) (snd acc) line.

Lemma turn_line_keeps (st : LogState) (line : string) :
  lastMoveUser (turn_line p1Config p2Config rand st line) = lastMoveUser st /\
  exists cs, calls (turn_line p1Config p2Config rand st line) = calls st ++ cs.
Proof.
  unfold turn_line, with_turn; cbn [lastMoveUser calls rng lastTrashTalkTurn lturn].
  destruct (match field line 2 with Some f => parseInt f | None => JNaN end) as [t|];
    [|split; [reflexivity|exists []; now rewrite app_nil_r]].
  destruct (3 <=? t - lastTrashTalkTurn st)%Z;
    [|split; [reflexivity|exists []; now rewrite app_nil_r]].
  destruct (q_lt (rand (rng st)) (1 # 5)); cbn [lastMoveUser calls];
    (split; [reflexivity|eexists; try reflexivity; now rewrite app_nil_r]).
Qed.

Lemma log_line_calls_grow (lm : option string) (st : LogState) (line : string) :
  exists cs, calls (snd (log_line p1Config p2Config rand lm st line)) = calls st ++ cs.
Proof.
  destruct (log_line_cases p1Config p2Config rand lm st line) as [-> | (_ & cs & Hc & _)];
    [apply turn_line_keeps|eauto].
Qed.

Lemma fold_calls_grow (lines : list string) (acc : option string * LogState) :
  exists cs, calls (snd (fold_left step lines acc)) = calls (snd acc) ++ cs.
Proof.
  revert acc; induction lines as [|l lines IH]; intros [lm st]; cbn [fold_left].
  - exists []; now rewrite app_nil_r.
  - destruct (log_line_calls_grow lm st l) as [cs1 H1].
    destruct (IH (log_line p1Config p2Config rand lm st l)) as [cs2 H2].
    change (step (lm, st) l) with (log_line p1Config p2Config rand lm st l).
    rewrite H2, H1, <- app_assoc; cbn [snd]; eauto.
Qed.

Lemma log_line_nomove (lm : option string) (st : LogState) (line : string) :
  startsWith line "|move|" = false ->
  fst (log_line p1Config p2Config rand lm st line) = lm /\
  lastMoveUser (snd (log_line p1Config p2Config rand lm st line)) = lastMoveUser st.
Proof.
  intros Hm; unfold log_line; rewrite Hm.
  repeat match goal with |- context [if ?b then _ else _] => destruct b end;
    cbn [fst snd]; try (split; [reflexivity|apply turn_line_keeps]);
    repeat match goal with |- context [match ?o with Some _ => _ | None => _ end] =>
      let E := fresh "E" in destruct o eqn:E end;
    (split; [reflexivity|cbn [with_calls lastMoveUser]; congruence]).
Qed.

Lemma fold_nomove (lines : list string) (lm : option string) (st : LogState) :
  Forall (fun l => startsWith l "|move|" = false) lines ->
  fst (fold_left step lines (lm, st)) = lm /\
  lastMoveUser (snd (fold_left step lines (lm, st))) = lastMoveUser st.
Proof.
  revert lm st; induction lines as [|l lines IH]; intros lm st H; cbn [fold_left]; [auto|].
  inversion H as [|? ? Hl Hls]; subst.
  destruct (log_line_nomove lm st l Hl) as [H1 H2].
  change (step (lm, st) l) with (log_line p1Config p2Config rand lm st l).
  destruct (log_line p1Config p2Config rand lm st l) as [lm' st'] eqn:E.
  cbn [fst snd] in H1, H2; subst lm'.
  destruct (IH lm st' Hls) as [H3 H4]; rewrite H3, H4, H2; auto.
Qed.

Lemma move_line_step (lm : option string) (st : LogState) (atk mv rest : string) :
  no_char "|" atk = true -> no_char "|" mv = true ->
  (rest = EmptyString \/ exists r, rest = String "|" r) ->
  log_line p1Config p2Config rand lm st ("|move|" ++ atk ++ "|" ++ mv ++ rest) =
    (Some mv, {| lturn := lturn st; lastTrashTalkTurn := lastTrashTalkTurn st;
                 lastMoveUser := Some (side_of atk); rng := rng st; calls := calls st |}).
Proof.
  intros Ha Hm Hr.
  assert (Hmv : exists tl, split "|" (mv ++ rest) = mv :: tl).
  { destruct Hr as [-> | [r ->]].
    - rewrite string_app_nil_r, TurnClaims.split_no_sep by exact Hm; eauto.
    - rewrite split_first by exact Hm; eauto. }
  destruct Hmv as [tl Htl].
  assert (Hs : split "|" ("|move|" ++ atk ++ "|" ++ mv ++ rest) = [""; "move"; atk; mv] ++ tl).
  { change ("|move|" ++ atk ++ "|" ++ mv ++ rest)%string
      with (String "|" ("move" ++ String "|" (atk ++ String "|" (mv ++ rest)))).
    cbn [split]; rewrite Ascii.eqb_refl.
    rewrite (split_first "|" "move") by reflexivity.
    rewrite (split_first "|" atk) by exact Ha.
    rewrite Htl; reflexivity. }
  unfold log_line, field; rewrite Hs; cbn [nth_error app]; decide_starts.
  unfold starts_any, console_only_prefixes_1; cbn [existsb]; decide_starts; cbn [orb].
  cbv zeta; rewrite or_else_self; reflexivity.
Qed.

Lemma supereffective_line_step (lm : option string) (st : LogState) (u : Side) (x : string) :
  lastMoveUser st = Some u ->
  log_line p1Config p2Config rand lm st ("|-supereffective|" ++ x) =
    (lm, with_calls st
      [{| dplayer := u; dtype := super_effective;
          dopponent := config_of p1Config p2Config (other u);
          dturn := lturn st; ownPokemon := None; opponentPokemon := None;
          moveName := Some (or_else lm "attack") |}]).
Proof.
  intros Hu; unfold log_line; decide_starts.
  unfold starts_any, console_only_prefixes_1, console_only_prefixes_2; cbn [existsb];
    decide_starts; cbn [orb].
  rewrite Hu; reflexivity.
Qed.

(** A super-effective line reached with [lastMoveName = lm] and a known
    move user [u] leaves a call for [u] naming [or_else lm "attack"] in
    the chunk's calls. *)
Lemma supereffective_in_chunk (st : LogState) (lm : option string) (u : Side)
    (B C : list string) (x : string) :
  Forall (fun l => startsWith l "|move|" = false) B ->
  lastMoveUser st = Some u ->
  exists t, In {| dplayer := u; dtype := super_effective;
                  dopponent := config_of p1Config p2Config (other u); dturn := t;
                  ownPokemon := None; opponentPokemon := None;
                  moveName := Some (or_else lm "attack") |}
               (calls (snd (fold_left step (B ++ ("|-supereffective|" ++ x)%string :: C)
                                      (lm, st)))).
Proof.
  intros HB Hu.
  rewrite fold_left_app; cbn [fold_left].
  destruct (fold_nomove B lm st HB) as [Hf Hl].
  destruct (fold_left step B (lm, st)) as [lm1 st1]; cbn [fst snd] in Hf, Hl; subst lm1.
  unfold step at 2; cbn [fst snd].
  rewrite (supereffective_line_step lm st1 u x) by congruence.
  destruct (fold_calls_grow C (lm, with_calls st1
      [{| dplayer := u; dtype := super_effective;
          dopponent := config_of p1Config p2Config (other u); dturn := lturn st1;
          ownPokemon := None; opponentPokemon := None;
          moveName := Some (or_else lm "attack") |}])) as [cs Hc].
  exists (lturn st1); rewrite Hc; cbn [snd calls with_calls].
  apply in_or_app; left; apply in_or_app; right; left; reflexivity.
Qed.

End MoveNames.

(** A super-effective line names the move of the closest [|move|] line
    before it in the same chunk, and credits that move's user; the
    [lastMoveName] local is reset for every chunk while [lastMoveUser]
    persists, so when that move is the chunk's last, a super-effective
    line of the next chunk that comes before any [|move|] line names
    ["attack"] and credits the same user. *)
Theorem supereffective_move_name (p1 p2 : LLMConfig) (rand : nat -> Q) (st : LogState)
    (chunk : string) (A B C : list string) (atk mv rest x : string) :
  mv <> EmptyString -> no_char "|" atk = true -> no_char "|" mv = true ->
  (rest = EmptyString \/ exists r, rest = String "|" r) ->
  Forall (fun l => startsWith l "|move|" = false) B ->
  split (ascii_of_nat 10) chunk =
    A ++ ("|move|" ++ atk ++ "|" ++ mv ++ rest)%string :: B ++
    ("|-supereffective|" ++ x)%string :: C ->
  let u := side_of atk in
  let st1 := logBattleEvents p1 p2 rand st chunk in
  (exists t, In {| dplayer := u; dtype := super_effective; dopponent := config_of p1 p2 (other u);
                   dturn := t; ownPokemon := None; opponentPokemon := None;
                   moveName := Some mv |} (calls st1)) /\
  (Forall (fun l => startsWith l "|move|" = false) C ->
   forall chunk' B' C' y,
     Forall (fun l => startsWith l "|move|" = false) B' ->
     split (ascii_of_nat 10) chunk' = B' ++ ("|-supereffective|" ++ y)%string :: C' ->
     exists t, In {| dplayer := u; dtype := super_effective; dopponent := config_of p1 p2 (other u);
                     dturn := t; ownPokemon := None; opponentPokemon := None;
                     moveName := Some "attack" |} (calls (logBattleEvents p1 p2 rand st1 chunk'))).
Proof.
  intros Hmv Ha Hm Hr HB Hsplit; cbv zeta.
  set (step := fun (acc : option string * LogState) line =>
                 log_line p1 p2 rand (fst acc) (snd acc) line).
  assert (Hor : or_else (Some mv) "attack" = mv) by (destruct mv; [contradiction|reflexivity]).
  assert (Hst : exists st0,
    fold_left step (split (ascii_of_nat 10) chunk) (None, st) =
    fold_left step (B ++ ("|-supereffective|" ++ x)%string :: C)
      (Some mv, {| lturn := lturn st0; lastTrashTalkTurn := lastTrashTalkTurn st0;
                   lastMoveUser := Some (side_of atk); rng := rng st0; calls := calls st0 |})).
  { rewrite Hsplit, fold_left_app; cbn [fold_left].
    destruct (fold_left step A (None, st)) as [lm0 st0].
    exists st0.
    change (step (lm0, st0) ("|move|" ++ atk ++ "|" ++ mv ++ rest)%string)
      with (log_line p1 p2 rand lm0 st0 ("|move|" ++ atk ++ "|" ++ mv ++ rest)).
    rewrite move_line_step by assumption; reflexivity. }
  destruct Hst as (st0 & Hst).
  unfold logBattleEvents; fold step; rewrite Hst.
  split.
  - pose proof (supereffective_in_chunk p1 p2 rand
      {| lturn := lturn st0; lastTrashTalkTurn := lastTrashTalkTurn st0;
         lastMoveUser := Some (side_of atk); rng := rng st0; calls := calls st0 |}
      (Some mv) (side_of atk) B C x HB eq_refl) as H.
    rewrite Hor in H; exact H.
  - intros HC chunk' B' C' y HB' Hsplit'.
    assert (Hu : lastMoveUser (snd (fold_left step (B ++ ("|-supereffective|" ++ x)%string :: C)
      (Some mv, {| lturn := lturn st0; lastTrashTalkTurn := lastTrashTalkTurn st0;
                   lastMoveUser := Some (side_of atk); rng := rng st0;
                   calls := calls st0 |}))) = Some (side_of atk)).
    { apply (fold_nomove p1 p2 rand).
      apply Forall_app; split; [exact HB|constructor; [reflexivity|exact HC]]. }
    rewrite Hsplit'.
    exact (supereffective_in_chunk p1 p2 rand _ None _ B' C' y HB' Hu).
Qed.

(** Witness: p1's Pikachu uses Thunderbolt on Gyarados, which is super
    effective. *)
Lemma supereffective_move_name_witness :
  exists t, In {| dplayer := P1; dtype := super_effective;
                  dopponent := {| provider := "claude"; model := "sonnet" |};
                  dturn := t; ownPokemon := None; opponentPokemon := None;
                  moveName := Some "Thunderbolt" |}
    (calls (logBattleEvents {| provider := "claude"; model := "opus" |}
              {| provider := "claude"; model := "sonnet" |} (fun _ => 0%Q) initial_log
              ("|move|p1a: Pikachu|Thunderbolt|p2a: Gyarados" ++
               String (ascii_of_nat 10) "|-supereffective|p2a: Gyarados"))).
Proof.
  refine (proj1 (supereffective_move_name {| provider := "claude"; model := "opus" |}
    {| provider := "claude"; model := "sonnet" |} (fun _ => 0%Q) initial_log
    ("|move|p1a: Pikachu|Thunderbolt|p2a: Gyarados" ++
     String (ascii_of_nat 10) "|-supereffective|p2a: Gyarados")
    [] [] [] "p1a: Pikachu" "Thunderbolt" "|p2a: Gyarados" "p2a: Gyarados"
    _ eq_refl eq_refl _ (Forall_nil _) eq_refl)).
  - discriminate.
  - right; exists "p2a: Gyarados"; reflexivity.
Defined.

End DialogueExtra.

(* ------------------------------------------------------------------ *)
(** ** [ActiveBattle] over a whole stream *)

Module SessionExtra.
Import Bridge BridgeFacts Session.
Local Open Scope list_scope.

Lemma on_chunk_events (b : BridgeState) (c : string) :
  exists mid, events (on_chunk b c) =
    events b ++ EvUpdate c :: mid ++ (if closes c then [EvEnd (parseWinner c)] else []) /\
    Forall (fun e => exists ic, e = EvInitialState ic) mid.
Proof.
  unfold on_chunk, closes; cbn [events initialStateResolved initialChunks].
  destruct (initialStateResolved b), (includes c "|switch|" || includes c "|turn|"),
    (includes c "|win|" || includes c "|tie|"); cbn [events];
    first [exists []; split; [rewrite <- ?app_assoc; reflexivity|constructor]
          |eexists [EvInitialState _]; split;
             [rewrite <- ?app_assoc; reflexivity|repeat constructor; eauto]].
Qed.

Lemma fold_react_initial (mid : list BridgeEvent) (s : Session) :
  Forall (fun e => exists ic, e = EvInitialState ic) mid ->
  fold_left react_step mid (Running s) = Running s.
Proof.
  induction mid as [|e mid IH]; intros H; simpl; [reflexivity|].
  inversion H as [|? ? [ic ->] Hmid]; subst; simpl; now apply IH.
Qed.

Lemma last_cons_default {A} (x d : A) (l : list A) : last l x = last (x :: l) d.
Proof.
  destruct l as [|y l]; [reflexivity|].
  change (last (x :: y :: l) d) with (last (y :: l) d).
  revert y; induction l as [|z l IH]; intros y; [reflexivity|].
  exact (IH z).
Qed.

Lemma deliver_facts (s : Session) (c : string) :
  exists s', deliver (Running s) c = Running s' /\
  slog s' = slog s ++ [c] /\
  saves s' = saves s ++ (if closes c then [parseWinner c] else []) /\
  swinner s' = (if closes c then parseWinner c else swinner s) /\
  observed s' = observed s ++ chunk_observations c /\
  bridge s' = on_chunk (bridge s) c.
Proof.
  destruct (on_chunk_events (bridge s) c) as (mid & He & Hmid).
  unfold deliver, new_events; rewrite He, SessionClaims.skipn_length_app.
  cbn [fold_left react_step react]; rewrite fold_left_app, (fold_react_initial mid) by exact Hmid.
  unfold chunk_observations.
  destruct (closes c); cbn; eexists; rewrite ?app_nil_r, <- ?app_assoc; repeat split; reflexivity.
Qed.

Lemma terminate_closed (s : Session) : terminate (Running s) Closed = Running s.
Proof.
  unfold terminate, new_events, listenToStream; cbn [fold_left].
  rewrite skipn_all; cbn; destruct s; reflexivity.
Qed.

(** Over a fresh session and the chunks the stream yields before it
    closes: the process keeps running; the session's log is the chunks in
    order; observers receive each chunk's update, followed by a
    session-ended event when it carries [|win|] or [|tie|]; each such
    chunk saves one outcome, with that chunk's parsed winner; the recorded
    winner is the last of these ([null] when none); and the battle is
    reported active exactly when no chunk carried either marker. *)
Theorem run_stream_fresh (cs : list string) :
  let p := run_stream fresh_session cs Closed in
  exit_code p = None /\
  slog (session_of p) = cs /\
  observed (session_of p) = flat_map chunk_observations cs /\
  saves (session_of p) = map parseWinner (filter closes cs) /\
  swinner (session_of p) = last (map parseWinner (filter closes cs)) None /\
  status_active (session_of p) = negb (existsb closes cs).
Proof.
  assert (H : forall s0, exists s, fold_left deliver cs (Running s0) = Running s /\
    slog s = slog s0 ++ cs /\
    observed s = observed s0 ++ flat_map chunk_observations cs /\
    saves s = saves s0 ++ map parseWinner (filter closes cs) /\
    swinner s = last (map parseWinner (filter closes cs)) (swinner s0) /\
    ended (bridge s) = ended (bridge s0) || existsb closes cs).
  { induction cs as [|c cs IH]; intros s0; cbn [fold_left flat_map filter existsb map last].
    - exists s0; rewrite !app_nil_r, orb_false_r; repeat split; reflexivity.
    - destruct (deliver_facts s0 c) as (s1 & Hd & L' & S' & W' & O' & B').
      destruct (IH s1) as (s & Hf & L & O & S & W & E).
      exists s; rewrite Hd; split; [exact Hf|].
      pose proof (proj1 (proj2 (BridgeExtra.on_chunk_facts (bridge s0) c))) as Hend.
      rewrite L, O, S, W, E, L', O', S', W', B', Hend, <- !app_assoc, <- orb_assoc.
      destruct (closes c); cbn [map app]; auto.
      split; [reflexivity|split; [reflexivity|split; [reflexivity|split; [|reflexivity]]]].
      apply last_cons_default. }
  cbv zeta; unfold run_stream, status_active.
  destruct (H fresh_session) as (s & Hf & L & O & S & W & E).
  rewrite Hf, terminate_closed; cbn [exit_code session_of].
  rewrite L, O, S, W, E; repeat split; reflexivity.
Qed.

(** Witness: a battle whose last chunk names the winner. *)
Lemma run_stream_fresh_witness :
  saves (session_of (run_stream fresh_session ["|switch|p1a: Pikachu"; "|win|claude/opus"] Closed)) =
    [Some "claude/opus"].
Proof.
  exact (proj1 (proj2 (proj2 (proj2 (run_stream_fresh ["|switch|p1a: Pikachu"; "|win|claude/opus"]))))).
Defined.

End SessionExtra.
